(** * RefCord: invite attribution, referral ledger and reward policy

    A shallow embedding of [bot.py].  The in-memory invite cache is a finite
    map per guild, the two SQLite tables are a finite map keyed by the
    primary key [code] and an append-only list, and every [await] on the
    platform is an explicit argument carrying what the platform answered. *)

From Stdlib Require Import ZArith DecimalString DecimalZ.
From stdpp Require Import gmap strings list fin_maps sorting.

Local Open Scope string_scope.
Local Open Scope list_scope.
Local Open Scope Z_scope.

(** ** Python values and builtins *)

Inductive exn :=
  | ValueError | KeyError | TypeError | AttributeError
  | OverflowError | JSONDecodeError.

Inductive result (A : Type) :=
  | Ok (a : A)
  | Raise (e : exn).
Arguments Ok {A} a.
Arguments Raise {A} e.

#[global] Instance result_ret : MRet result := λ A a, Ok a.
#[global] Instance result_bind : MBind result := λ A B k r,
  match r with
  | Ok a => k a
  | Raise e => Raise e
  end.

(** [str(n)] on an [int]: the canonical decimal rendering. *)
Definition py_str (n : Z) : string := NilZero.string_of_int (Z.to_int n).

(** A model string is the UTF-8 encoding of a Python [str];
    [utf8_decode] gives back its code points, and nothing for bytes that
    encode no [str]. *)
Definition utf8_continuation (b : Ascii.ascii) : option N :=
  let n := Ascii.N_of_ascii b in
  if ((128 <=? n) && (n <? 192))%N then Some (n - 128)%N else None.

Fixpoint utf8_decode (s : string) : option (list N) :=
  match s with
  | EmptyString => Some []
  | String b1 s1 =>
      let n1 := Ascii.N_of_ascii b1 in
      if (n1 <? 128)%N then cons n1 <$> utf8_decode s1
      else if (n1 <? 192)%N then None
      else if (n1 <? 224)%N then
        match s1 with
        | String b2 s2 =>
            match utf8_continuation b2 with
            | Some c2 =>
                let cp := ((n1 - 192) * 64 + c2)%N in
                if (128 <=? cp)%N then cons cp <$> utf8_decode s2 else None
            | None => None
            end
        | EmptyString => None
        end
      else if (n1 <? 240)%N then
        match s1 with
        | String b2 (String b3 s3) =>
            match utf8_continuation b2, utf8_continuation b3 with
            | Some c2, Some c3 =>
                let cp := (((n1 - 224) * 64 + c2) * 64 + c3)%N in
                if ((2048 <=? cp) && negb ((55296 <=? cp) && (cp <? 57344)))%N
                then cons cp <$> utf8_decode s3 else None
            | _, _ => None
            end
        | _ => None
        end
      else if (n1 <? 248)%N then
        match s1 with
        | String b2 (String b3 (String b4 s4)) =>
            match utf8_continuation b2, utf8_continuation b3, utf8_continuation b4 with
            | Some c2, Some c3, Some c4 =>
                let cp := ((((n1 - 240) * 64 + c2) * 64 + c3) * 64 + c4)%N in
                if ((65536 <=? cp) && (cp <=? 1114111))%N
                then cons cp <$> utf8_decode s4 else None
            | _, _, _ => None
            end
        | _ => None
        end
      else None
  end.

(** The code points from 127 up that [str.isspace] accepts. *)
Definition unicode_spaces : list N :=
  [133; 160; 5760; 8192; 8193; 8194; 8195; 8196; 8197; 8198; 8199; 8200;
   8201; 8202; 8232; 8233; 8239; 8287; 12288]%N.

(** The digit zero of every non-ASCII block of decimal digits (Unicode 14);
    each block is ten consecutive code points, in order of value. *)
Definition unicode_decimal_zeros : list N :=
  [1632; 1776; 1984; 2406; 2534; 2662; 2790; 2918; 3046; 3174; 3302; 3430;
   3558; 3664; 3792; 3872; 4160; 4240; 6112; 6160; 6470; 6608; 6784; 6800;
   6992; 7088; 7232; 7248; 42528; 43216; 43264; 43472; 43504; 43600; 44016;
   65296; 66720; 68912; 69734; 69872; 69942; 70096; 70384; 70736; 70864;
   71248; 71360; 71472; 71904; 72016; 72784; 73040; 73120; 92768; 92864;
   93008; 120782; 120792; 120802; 120812; 120822; 123200; 123632; 125264;
   130032]%N.

Definition unicode_decimal (c : N) : option N :=
  (λ z, c - z)%N <$>
    List.find (λ z, (z <=? c) && (c <? z + 10))%N unicode_decimal_zeros.

(** What [int()] does to every character before it parses: code points
    below 127 stay, spaces become a blank, decimal digits become their ASCII
    digit, anything else becomes a question mark. *)
Definition to_ascii_decimal_and_space (c : N) : N :=
  if (c <? 127)%N then c
  else if bool_decide (c ∈ unicode_spaces) then 32%N
  else match unicode_decimal c with
       | Some d => (48 + d)%N
       | None => 63%N
       end.

(** The blanks the parser skips: tab, line feed, vertical tab, form feed,
    carriage return and space. *)
Definition py_isspace (c : N) : bool :=
  bool_decide (c ∈ [9; 10; 11; 12; 13; 32]%N).

Definition py_isdigit (c : N) : bool := ((48 <=? c) && (c <=? 57))%N.

Fixpoint skip_spaces (l : list N) : list N :=
  match l with
  | c :: r => if py_isspace c then skip_spaces r else l
  | [] => []
  end.

(** Decimal digits with single underscores between them, then blanks up
    to the end. *)
Fixpoint digits_value (acc : Z) (after_digit : bool) (l : list N) : option Z :=
  match l with
  | [] => if after_digit then Some acc else None
  | c :: r =>
      if py_isdigit c then digits_value (10 * acc + Z.of_N (c - 48)) true r
      else if negb after_digit then None
      else if (c =? 95)%N then digits_value acc false r
      else if py_isspace c && forallb py_isspace r then Some acc
      else None
  end.

(** [int(s)] on a [str]: blanks, an optional sign, digits, blanks; the
    digits may be those of any script.  Every failure is a [ValueError].
    The interpreter's limit on the number of digits (4300 by default) is
    left out. *)
Definition py_int (s : string) : result Z :=
  match utf8_decode s with
  | None => Raise ValueError
  | Some cps =>
      let l := skip_spaces (to_ascii_decimal_and_space <$> cps) in
      let signed :=
        match l with
        | c :: r =>
            if (c =? 43)%N then (false, r)
            else if (c =? 45)%N then (true, r)
            else (false, l)
        | [] => (false, l)
        end in
      match digits_value 0 false signed.2 with
      | Some n => Ok (if signed.1 then - n else n)
      | None => Raise ValueError
      end
  end.

(** [x or 0] on an optional integer: [None] and [0] are both falsy. *)
Definition or0 (x : option Z) : Z :=
  match x with
  | Some n => if decide (n = 0) then 0 else n
  | None => 0
  end.

(** [d[k]] on a [dict]. *)
Definition getitem {V} (d : gmap string V) (k : string) : result V :=
  match d !! k with
  | Some v => Ok v
  | None => Raise KeyError
  end.

(** What [json.loads] can return.  A [dict] lists its items in insertion
    order.  A [float] is represented by what [int()] makes of it: its
    truncation toward zero, or nothing for an infinity or a NaN, on which
    [int()] raises. *)
#[warnings="-register-all"] Inductive pyval :=
  | PNone
  | PBool (b : bool)
  | PInt (n : Z)
  | PFloat (trunc : option Z)
  | PStr (s : string)
  | PList (l : list pyval)
  | PDict (items : list (string * pyval)).

(** [int(v)]. *)
Definition py_int_of (v : pyval) : result Z :=
  match v with
  | PNone => Raise TypeError
  | PBool b => Ok (if b then 1 else 0)
  | PInt n => Ok n
  | PFloat (Some n) => Ok n
  | PFloat None => Raise OverflowError
  | PStr s => py_int s
  | PList _ => Raise TypeError
  | PDict _ => Raise TypeError
  end.

(** [v.items()]: only a [dict] has the attribute. *)
Definition py_items (v : pyval) : result (list (string * pyval)) :=
  match v with
  | PDict items => Ok items
  | _ => Raise AttributeError
  end.

(** ** The platform as seen by the handlers *)

Record invite := { inv_code : string; inv_uses : option Z }.

(** The outcome of [await guild.invites()]. *)
Inductive fetch_result :=
  | FetchOk (invites : list invite)
  | FetchForbidden
  | FetchError.

(** [roles] are the role ids [get_role] finds, [members] maps each member
    [get_member] finds to the roles they hold. *)
Record guild := {
  guild_id : Z;
  guild_roles : gset Z;
  guild_members : gmap Z (gset Z)
}.

(** ** Invites cache *)

(** [{inv.code: (inv.uses or 0) for inv in invites}]: a later item with the
    same code overwrites an earlier one. *)
Definition snapshot_of (invites : list invite) : gmap string Z :=
  foldl (λ m inv, <[inv_code inv := or0 (inv_uses inv)]> m) ∅ invites.

Definition refresh_guild_invites (g : Z) (fetch : fetch_result)
    (cache : gmap Z (gmap string Z)) : gmap Z (gmap string Z) :=
  match fetch with
  | FetchOk invites => <[g := snapshot_of invites]> cache
  | FetchForbidden => <[g := ∅]> cache
  | FetchError => cache
  end.

Definition on_invite_create (g : Z) (inv : invite)
    (cache : gmap Z (gmap string Z)) : gmap Z (gmap string Z) :=
  <[g := <[inv_code inv := or0 (inv_uses inv)]> (default ∅ (cache !! g))]> cache.

Definition on_invite_delete (g : Z) (inv : invite)
    (cache : gmap Z (gmap string Z)) : gmap Z (gmap string Z) :=
  match cache !! g with
  | Some m => <[g := delete (inv_code inv) m]> cache
  | None => cache
  end.

(** ** Rewards config *)

Inductive log_level := LogInfo | LogWarning | LogError.

(** What [REFERRAL_REWARDS_JSON] holds: nothing but blanks, or a text that
    [json.loads] either rejects or turns into a value. *)
Inductive rewards_env :=
  | EnvBlank
  | EnvText (parsed : option pyval).

(** [{str(k): int(v) for k, v in mapping.items()}]; JSON keys are strings
    already, so [str(k)] is [k]. *)
Definition convert_mapping (mapping : pyval) : result (gmap string Z) :=
  items ← py_items mapping ;
  vs ← mapM (λ kv, n ← py_int_of kv.2 ; Ok (kv.1, n)) items ;
  Ok (foldl (λ m kv, <[kv.1 := kv.2]> m) ∅ vs).

(** The body of the [try]: the loop rewrites [data] guild by guild. *)
Definition convert_config (data : pyval) : result (gmap string (gmap string Z)) :=
  items ← py_items data ;
  ms ← mapM (λ gm, m ← convert_mapping gm.2 ; Ok (gm.1, m)) items ;
  Ok (foldl (λ d gm, <[gm.1 := gm.2]> d) ∅ ms).

Definition load_rewards_config (env : rewards_env)
    : gmap string (gmap string Z) * list log_level :=
  match env with
  | EnvBlank => (∅, [])
  | EnvText None => (∅, [LogError])
  | EnvText (Some data) =>
      match convert_config data with
      | Ok cfg => (cfg, [])
      | Raise _ => (∅, [LogError])
      end
  end.

Definition next_award_roles_for (REFERRAL_REWARDS : gmap string (gmap string Z))
    (guild_id total_referrals : Z) : result (option Z * list Z) :=
  let mapping := default ∅ (REFERRAL_REWARDS !! py_str guild_id) in
  if decide (mapping = ∅) then Ok (None, [])
  else
    ts ← mapM py_int (map_to_list mapping).*1 ;
    let thresholds := merge_sort Z.le ts in
    let eligible := filter (λ t, t ≤ total_referrals) thresholds in
    match eligible with
    | [] => Ok (None, [])
    | t0 :: rest =>
        let best := foldl Z.max t0 rest in
        role ← getitem mapping (py_str best) ;
        roles ← mapM (λ t, getitem mapping (py_str t)) eligible ;
        Ok (Some role, roles)
    end.

(** ** Database *)

(** A row of [user_invites]; the primary key [code] is the key of the map
    that holds the rows.  SQLite integers are 64-bit; ids and counts stay
    below that bound, so columns are plain integers. *)
Record invite_row := {
  row_guild_id : Z;
  row_user_id : Z;
  row_uses : Z
}.

Record join_event := {
  ev_guild_id : Z;
  ev_joined_user_id : Z;
  ev_inviter_code : string;
  ev_ts : Z
}.

Record database := {
  user_invites : gmap string invite_row;
  join_events : list join_event
}.

Definition empty_db : database := {| user_invites := ∅; join_events := [] |}.

(** A connection opened by [aiosqlite.connect]: the first data-changing
    statement opens a transaction, statements work on [pending], [commit]
    makes [pending] durable, and leaving the [async with] block closes the
    connection, which keeps [committed] only. *)
Record connection := {
  committed : database;
  pending : database
}.

Definition connect (db : database) : connection :=
  {| committed := db; pending := db |}.

Definition execute (stmt : database → database) (conn : connection) : connection :=
  {| committed := committed conn; pending := stmt (pending conn) |}.

Definition commit (conn : connection) : connection :=
  {| committed := pending conn; pending := pending conn |}.

Definition close (conn : connection) : database := committed conn.

(** [INSERT INTO user_invites ... VALUES (?, ?, ?, COALESCE((SELECT uses
    ...), 0)) ON CONFLICT(code) DO UPDATE SET user_id=excluded.user_id,
    guild_id=excluded.guild_id] *)
Definition sql_upsert_invite_owner (g u : Z) (code : string) (db : database) : database :=
  let excluded :=
    {| row_guild_id := g; row_user_id := u;
       row_uses := default 0 (row_uses <$> user_invites db !! code) |} in
  let row :=
    match user_invites db !! code with
    | None => excluded
    | Some old =>
        {| row_guild_id := row_guild_id excluded;
           row_user_id := row_user_id excluded;
           row_uses := row_uses old |}
    end in
  {| user_invites := <[code := row]> (user_invites db);
     join_events := join_events db |}.

(** [UPDATE user_invites SET uses = uses + 1 WHERE guild_id=? AND code=?];
    [code] being the primary key, at most one row matches. *)
Definition sql_increment_uses (g : Z) (code : string) (db : database) : database :=
  match user_invites db !! code with
  | Some r =>
      if decide (row_guild_id r = g) then
        {| user_invites :=
             <[code := {| row_guild_id := row_guild_id r;
                          row_user_id := row_user_id r;
                          row_uses := row_uses r + 1 |}]> (user_invites db);
           join_events := join_events db |}
      else db
  | None => db
  end.

(** [INSERT INTO join_events (...) VALUES (?, ?, ?, strftime('%s','now'))] *)
Definition sql_insert_join_event (g joined : Z) (code : string) (now : Z)
    (db : database) : database :=
  {| user_invites := user_invites db;
     join_events := join_events db ++
       [{| ev_guild_id := g; ev_joined_user_id := joined;
           ev_inviter_code := code; ev_ts := now |}] |}.

(** [SELECT COALESCE(SUM(uses), 0) FROM user_invites WHERE guild_id=? AND
    user_id=?]: [SUM] over no row is [NULL]. *)
Definition sql_sum_uses (g u : Z) (db : database) : Z :=
  let rows :=
    filter (λ r, row_guild_id r = g ∧ row_user_id r = u)
           (map_to_list (user_invites db)).*2 in
  let sum := match rows with
             | [] => None
             | _ => Some (foldr Z.add 0 (row_uses <$> rows))
             end in
  default 0 sum.

(** [SELECT user_id FROM user_invites WHERE guild_id=? AND code=?], then
    [fetchone()]. *)
Definition sql_select_owner (g : Z) (code : string) (db : database) : option Z :=
  match user_invites db !! code with
  | Some r => if decide (row_guild_id r = g) then Some (row_user_id r) else None
  | None => None
  end.

(** ** Utilities *)

Definition get_member_total_referrals (guild_id user_id : Z) (db : database) : Z :=
  or0 (Some (sql_sum_uses guild_id user_id db)).

Definition add_or_upsert_invite_owner (guild_id user_id : Z) (code : string)
    (db : database) : database :=
  close (commit (execute (sql_upsert_invite_owner guild_id user_id code) (connect db))).

(** The three steps of [increment_code_use] after the connection is open. *)
Definition increment_code_use_steps (guild_id : Z) (used_code : string)
    (joined_user_id now : Z) : list (connection → connection) :=
  [ execute (sql_increment_uses guild_id used_code);
    execute (sql_insert_join_event guild_id joined_user_id used_code now);
    commit ].

Definition run_steps (steps : list (connection → connection))
    (conn : connection) : connection :=
  foldl (λ c step, step c) conn steps.

Definition increment_code_use (guild_id : Z) (used_code : string)
    (joined_user_id now : Z) (db : database) : database :=
  close (run_steps (increment_code_use_steps guild_id used_code joined_user_id now)
                   (connect db)).

(** [increment_code_use] when an exception leaves the [async with] block
    after [k] of its steps have run: the remaining steps are skipped and the
    connection is closed. *)
Definition increment_code_use_failing_after (k : nat) (guild_id : Z)
    (used_code : string) (joined_user_id now : Z) (db : database) : database :=
  close (run_steps
           (take k (increment_code_use_steps guild_id used_code joined_user_id now))
           (connect db)).

(** ** Events *)

Record state := {
  invites_cache : gmap Z (gmap string Z);
  store : database;
  REFERRAL_REWARDS : gmap string (gmap string Z)
}.

(** The loop of [on_member_join] that looks for the used code. *)
Fixpoint resolveJoin (before : gmap string Z) (after_invites : list invite)
    : option string :=
  match after_invites with
  | [] => None
  | inv :: rest =>
      let prev := default 0 (before !! inv_code inv) in
      if decide (prev < or0 (inv_uses inv)) then Some (inv_code inv)
      else resolveJoin before rest
  end.

(** Truth tests [if not used_code], [if inviter_user_id], [if new_role_id]:
    [None], the empty string and [0] are falsy. *)
Definition truthy_str (x : option string) : option string :=
  match x with
  | Some s => if decide (s = "") then None else Some s
  | None => None
  end.

Definition truthy_int (x : option Z) : option Z :=
  match x with
  | Some n => if decide (n = 0) then None else Some n
  | None => None
  end.

(** The [add_roles] call the handler issues for an inviter, if any. *)
Definition role_grant (gd : guild) (inviter_user_id : Z) (new_role_id : option Z)
    : option (Z * Z) :=
  match truthy_int new_role_id with
  | None => None
  | Some rid =>
      if decide (rid ∈ guild_roles gd) then
        match guild_members gd !! inviter_user_id with
        | Some held =>
            if decide (rid ∈ held) then None else Some (inviter_user_id, rid)
        | None => None
        end
      else None
  end.

Inductive join_outcome :=
  | FetchFailed (level : log_level)
  | NotDetermined
  | Attributed (used_code : string) (grant : option (Z * Z))
  | HandlerRaised (used_code : string) (e : exn).

Definition on_member_join (gd : guild) (member_id : Z) (fetch : fetch_result)
    (now : Z) (st : state) : state * join_outcome :=
  let before := default ∅ (invites_cache st !! guild_id gd) in
  match fetch with
  | FetchForbidden => (st, FetchFailed LogWarning)
  | FetchError => (st, FetchFailed LogError)
  | FetchOk after_invites =>
      let used_code := resolveJoin before after_invites in
      let cache := <[guild_id gd := snapshot_of after_invites]> (invites_cache st) in
      match truthy_str used_code with
      | None =>
          ({| invites_cache := cache; store := store st;
              REFERRAL_REWARDS := REFERRAL_REWARDS st |}, NotDetermined)
      | Some code =>
          let db := increment_code_use (guild_id gd) code member_id now (store st) in
          let st' := {| invites_cache := cache; store := db;
                        REFERRAL_REWARDS := REFERRAL_REWARDS st |} in
          match truthy_int (sql_select_owner (guild_id gd) code db) with
          | None => (st', Attributed code None)
          | Some inviter_user_id =>
              let total := get_member_total_referrals (guild_id gd) inviter_user_id db in
              match next_award_roles_for (REFERRAL_REWARDS st) (guild_id gd) total with
              | Raise e => (st', HandlerRaised code e)
              | Ok (new_role_id, _) =>
                  (st', Attributed code (role_grant gd inviter_user_id new_role_id))
              end
          end
      end
  end.

(** ** Sequences of ledger calls *)

Inductive ledger_call :=
  | RegisterOwnership (guild_id user_id : Z) (code : string)
  | RecordUse (guild_id : Z) (code : string) (joined_user_id now : Z).

Definition ledger_step (db : database) (c : ledger_call) : database :=
  match c with
  | RegisterOwnership g u code => add_or_upsert_invite_owner g u code db
  | RecordUse g code j now => increment_code_use g code j now db
  end.

Definition ledger_run (calls : list ledger_call) (db : database) : database :=
  foldl ledger_step db calls.

(** ** What the specification says, in its own words *)

(** An invite's use count in the fresh list strictly exceeds the count the
    [before] snapshot has for its code, a missing code counting as 0. *)
Definition increased (before : gmap string Z) (inv : invite) : Prop :=
  default 0 (before !! inv_code inv) < or0 (inv_uses inv).

#[global] Instance increased_dec before inv : Decision (increased before inv).
Proof. unfold increased. apply _. Defined.

(** The state a handler leaves when it only replaces the invites cache. *)
Definition with_cache (cache : gmap Z (gmap string Z)) (st : state) : state :=
  {| invites_cache := cache; store := store st;
     REFERRAL_REWARDS := REFERRAL_REWARDS st |}.

(** The [before] snapshot [on_member_join] takes for a guild. *)
Definition before_snapshot (gd : guild) (st : state) : gmap string Z :=
  default ∅ (invites_cache st !! guild_id gd).

(** ** Sample data *)

Definition sample_guild : guild :=
  {| guild_id := 1; guild_roles := {[ 100; 200 ]};
     guild_members := {[ 9 := ∅ ]} |}.

Definition sample_invite (code : string) (uses : Z) : invite :=
  {| inv_code := code; inv_uses := Some uses |}.

Definition sample_state : state :=
  {| invites_cache := {[ 1 := <["A" := 5]> (<["B" := 2]> ∅) ]};
     store := empty_db;
     REFERRAL_REWARDS := ∅ |}.

(** ** The ledger in the specification's words *)

(** The number of join events attributed to a code. *)
Definition count_events (code : string) (events : list join_event) : nat :=
  length (filter (λ e, ev_inviter_code e = code) events).

(** The global invariant as the specification words it: every stored use
    count is at least the number of join events attributed to its code. *)
Definition uses_cover_events (db : database) : Prop :=
  ∀ code r, user_invites db !! code = Some r →
    Z.of_nat (count_events code (join_events db)) ≤ row_uses r.

(** The direction of the invariant that every reachable database has. *)
Definition events_cover_uses (db : database) : Prop :=
  ∀ code r, user_invites db !! code = Some r →
    row_uses r ≤ Z.of_nat (count_events code (join_events db)).

(** The exact form: stored counts equal event counts, and a code without
    a row has no event. *)
Definition uses_match_events (db : database) : Prop :=
  (∀ code r, user_invites db !! code = Some r →
     row_uses r = Z.of_nat (count_events code (join_events db))) ∧
  (∀ code, user_invites db !! code = None →
     count_events code (join_events db) = 0%nat).

(** A [RecordUse] call hits when its code is registered in its guild at
    the time of the call, so that its [UPDATE] matches a row. *)
Definition call_hits (c : ledger_call) (db : database) : bool :=
  match c with
  | RegisterOwnership _ _ _ => true
  | RecordUse g code _ _ => bool_decide (is_Some (sql_select_owner g code db))
  end.

Fixpoint every_use_hits (calls : list ledger_call) (db : database) : bool :=
  match calls with
  | [] => true
  | c :: rest => call_hits c db && every_use_hits rest (ledger_step db c)
  end.

(** The invite row is owned by user [u] in guild [g]. *)
Definition owned_by (g u : Z) (r : invite_row) : Prop :=
  row_guild_id r = g ∧ row_user_id r = u.

#[global] Instance owned_by_dec g u r : Decision (owned_by g u r).
Proof. unfold owned_by. apply _. Defined.

(** The sum of [uses] across all invites owned by [u] in [g]. *)
Definition sum_owned_uses (g u : Z) (db : database) : Z :=
  map_fold (λ _ r acc, if decide (owned_by g u r) then row_uses r + acc else acc)
           0 (user_invites db).

Definition sample_row (g u uses : Z) : invite_row :=
  {| row_guild_id := g; row_user_id := u; row_uses := uses |}.

Definition sample_db : database :=
  {| user_invites := {[ "A" := sample_row 1 9 4 ]};
     join_events := [] |}.

(** ** Reward policies in the specification's words *)

(** The configured mapping of a guild, [{}] when the guild has none. *)
Definition guild_mapping (rewards : gmap string (gmap string Z)) (g : Z)
    : gmap string Z :=
  default ∅ (rewards !! py_str g).

(** The JSON form of a policy from integer thresholds to role ids: each
    threshold is written as its decimal string. *)
Definition encode_policy (policy : gmap Z Z) : gmap string Z :=
  kmap py_str policy.

(** What [next_award_roles_for] does once the thresholds are parsed. *)
Definition award_from_thresholds (mapping : gmap string Z) (total : Z)
    (ts : list Z) : result (option Z * list Z) :=
  match filter (λ t, t ≤ total) (merge_sort Z.le ts) with
  | [] => Ok (None, [])
  | t0 :: rest =>
      getitem mapping (py_str (foldl Z.max t0 rest)) ≫= λ role,
      mapM (λ t, getitem mapping (py_str t))
           (filter (λ t, t ≤ total) (merge_sort Z.le ts)) ≫= λ roles,
      Ok (Some role, roles)
  end.

(** The configuration [{"1": {"5": 100, "10": 200}}]. *)
Definition sample_rewards : gmap string (gmap string Z) :=
  {[ "1" := <["5" := 100]> (<["10" := 200]> ∅) ]}.

Definition sample_policy : gmap Z Z := <[5 := 100]> (<[10 := 200]> ∅).

(** ** Reward configuration in the specification's words *)

(** A role value [int()] accepts. *)
Definition convertible (v : pyval) : bool :=
  match py_int_of v with
  | Ok _ => true
  | Raise _ => false
  end.

(** A guild's entry is valid when it is an object whose values are all
    convertible. *)
Definition valid_entry (mapping : pyval) : bool :=
  match mapping with
  | PDict items => forallb (λ kv, convertible kv.2) items
  | _ => false
  end.

(** The whole configuration is valid when it is an object of valid
    entries. *)
Definition valid_config (data : pyval) : bool :=
  match data with
  | PDict items => forallb (λ gm, valid_entry gm.2) items
  | _ => false
  end.

Definition items_of (data : pyval) : list (string * pyval) :=
  match data with
  | PDict items => items
  | _ => []
  end.

(** [{"1": {"5": 100}, "2": {"5": null}}]: guild 1 is well configured,
    guild 2 maps a threshold to [null]. *)
Definition sample_mixed_config : pyval :=
  PDict [ ("1", PDict [("5", PInt 100)]);
          ("2", PDict [("5", PNone)]) ].


(** Guild 1 with code [B] registered to member 9 and one tier at 1
    referral. *)
Definition sample_registered_state : state :=
  {| invites_cache := {[ 1 := <["A" := 5]> (<["B" := 2]> ∅) ]};
     store := add_or_upsert_invite_owner 1 9 "B" empty_db;
     REFERRAL_REWARDS := {[ "1" := {[ "1" := 100 ]} ]} |}.

(** ** Decimal numerals as code points *)

(** The code points of a decimal numeral, most significant digit first. *)
Fixpoint uint_codes (d : Decimal.uint) : list N :=
  match d with
  | Decimal.Nil => []
  | Decimal.D0 d => 48%N :: uint_codes d
  | Decimal.D1 d => 49%N :: uint_codes d
  | Decimal.D2 d => 50%N :: uint_codes d
  | Decimal.D3 d => 51%N :: uint_codes d
  | Decimal.D4 d => 52%N :: uint_codes d
  | Decimal.D5 d => 53%N :: uint_codes d
  | Decimal.D6 d => 54%N :: uint_codes d
  | Decimal.D7 d => 55%N :: uint_codes d
  | Decimal.D8 d => 56%N :: uint_codes d
  | Decimal.D9 d => 57%N :: uint_codes d
  end.

(** The value of a numeral read after the digits that gave [acc]. *)
Fixpoint uint_value (acc : Z) (d : Decimal.uint) : Z :=
  match d with
  | Decimal.Nil => acc
  | Decimal.D0 d => uint_value (10 * acc + 0) d
  | Decimal.D1 d => uint_value (10 * acc + 1) d
  | Decimal.D2 d => uint_value (10 * acc + 2) d
  | Decimal.D3 d => uint_value (10 * acc + 3) d
  | Decimal.D4 d => uint_value (10 * acc + 4) d
  | Decimal.D5 d => uint_value (10 * acc + 5) d
  | Decimal.D6 d => uint_value (10 * acc + 6) d
  | Decimal.D7 d => uint_value (10 * acc + 7) d
  | Decimal.D8 d => uint_value (10 * acc + 8) d
  | Decimal.D9 d => uint_value (10 * acc + 9) d
  end.

(** ** Startup and guild events *)

(** [on_ready] refreshes every guild of the bot in turn; each guild comes
    with what its [guild.invites()] answers.  [init_db] only creates the
    two tables when they are missing. *)
Definition on_ready (guilds : list (Z * fetch_result))
    (cache : gmap Z (gmap string Z)) : gmap Z (gmap string Z) :=
  foldl (λ c gf, refresh_guild_invites gf.1 gf.2 c) cache guilds.

Definition on_guild_join (g : Z) (fetch : fetch_result)
    (cache : gmap Z (gmap string Z)) : gmap Z (gmap string Z) :=
  refresh_guild_invites g fetch cache.

(** ** Slash commands *)

(** The outcome of [await channel.create_invite(...)]. *)
Inductive create_result :=
  | CreateOk (inv : invite)
  | CreateForbidden
  | CreateError.

(** The [max_uses] and [max_age] arguments both invite commands pass to
    [create_invite]: 0 uses means unlimited ([None]), minutes become
    seconds. *)
Definition invite_limits (max_uses max_age_minutes : Z) : option Z * Z :=
  (if decide (max_uses = 0) then None else Some max_uses,
   if decide (max_age_minutes = 0) then 0 else max_age_minutes * 60).

(** What a command answers; the texts themselves are constant. *)
Inductive reply :=
  | ReplyNeedCreateInvite
  | ReplyFailed
  | ReplyPersonalInvite (inv : invite)
  | ReplyPublicInvite (inv : invite)
  | ReplyTotal (total : Z)
  | ReplyNoData
  | ReplyLeaderboard (rows : list (Z * Z))
  | ReplyOwnerOnly
  | ReplyReloaded.

Definition create_personal_invite (create_invite : option Z → Z → create_result)
    (guild_id user_id max_uses max_age_minutes : Z) (st : state) : state * reply :=
  let limits := invite_limits max_uses max_age_minutes in
  match create_invite limits.1 limits.2 with
  | CreateForbidden => (st, ReplyNeedCreateInvite)
  | CreateError => (st, ReplyFailed)
  | CreateOk inv =>
      let db := add_or_upsert_invite_owner guild_id user_id (inv_code inv) (store st) in
      ({| invites_cache := on_invite_create guild_id inv (invites_cache st);
          store := db;
          REFERRAL_REWARDS := REFERRAL_REWARDS st |},
       ReplyPersonalInvite inv)
  end.

Definition create_public_invite (create_invite : option Z → Z → create_result)
    (guild_id max_uses max_age_minutes : Z) (st : state) : state * reply :=
  let limits := invite_limits max_uses max_age_minutes in
  match create_invite limits.1 limits.2 with
  | CreateForbidden => (st, ReplyNeedCreateInvite)
  | CreateError => (st, ReplyFailed)
  | CreateOk inv =>
      ({| invites_cache := on_invite_create guild_id inv (invites_cache st);
          store := store st;
          REFERRAL_REWARDS := REFERRAL_REWARDS st |},
       ReplyPublicInvite inv)
  end.

Definition my_referrals (guild_id user_id : Z) (st : state) : reply :=
  ReplyTotal (get_member_total_referrals guild_id user_id (store st)).

(** [ORDER BY total DESC] on [(user_id, total)] rows. *)
Definition total_desc (a b : Z * Z) : Prop := b.2 ≤ a.2.

#[global] Instance total_desc_dec a b : Decision (total_desc a b).
Proof. unfold total_desc. apply _. Defined.

(** [SELECT user_id, SUM(uses) AS total FROM user_invites WHERE guild_id=?
    GROUP BY user_id ORDER BY total DESC LIMIT ?].  A negative [LIMIT] is
    no limit.  SQLite leaves the order of rows with equal totals open; the
    one chosen here is that of a stable sort of the groups. *)
Definition sql_top_referrals (g limit : Z) (db : database) : list (Z * Z) :=
  let rows := filter (λ r, row_guild_id r = g) (map_to_list (user_invites db)).*2 in
  let users := remove_dups (row_user_id <$> rows) in
  let groups :=
    (λ u, (u, foldr Z.add 0
                (row_uses <$> filter (λ r, row_user_id r = u) rows))) <$> users in
  let ordered := merge_sort total_desc groups in
  if decide (limit < 0) then ordered else take (Z.to_nat limit) ordered.

(** [top_referrals] up to the text of the embed, whose line [i] is built
    from row [i] with rank [i + 1]. *)
Definition top_referrals (guild_id limit : Z) (st : state) : reply :=
  match sql_top_referrals guild_id limit (store st) with
  | [] => ReplyNoData
  | rows => ReplyLeaderboard rows
  end.

Definition reload_rewards (user_id owner_id : Z) (env : rewards_env)
    (st : state) : state * reply * list log_level :=
  if decide (user_id = owner_id) then
    let loaded := load_rewards_config env in
    ({| invites_cache := invites_cache st; store := store st;
        REFERRAL_REWARDS := loaded.1 |}, ReplyReloaded, loaded.2)
  else (st, ReplyOwnerOnly, []).

(** ** More of the specification's words *)

(** The join event a [recordUse] call appends. *)
Definition event_of_call (c : ledger_call) : option join_event :=
  match c with
  | RegisterOwnership _ _ _ => None
  | RecordUse g code j now =>
      Some {| ev_guild_id := g; ev_joined_user_id := j;
              ev_inviter_code := code; ev_ts := now |}
  end.

(** What an invite row adds to the total of user [u] in guild [g]. *)
Definition owned_uses (g u : Z) (r : invite_row) : Z :=
  if decide (owned_by g u r) then row_uses r else 0.

(** The JSON object of a configuration whose role ids are integers. *)
Definition json_of_mapping (m : gmap string Z) : pyval :=
  PDict ((λ kv, (kv.1, PInt kv.2)) <$> map_to_list m).

Definition json_of_config (cfg : gmap string (gmap string Z)) : pyval :=
  PDict ((λ gm, (gm.1, json_of_mapping gm.2)) <$> map_to_list cfg).

(** Guild 1 configured with a threshold key [int()] rejects. *)
Definition sample_bad_key_state : state :=
  {| invites_cache := {[ 1 := <["A" := 5]> (<["B" := 2]> ∅) ]};
     store := add_or_upsert_invite_owner 1 9 "B" empty_db;
     REFERRAL_REWARDS := {[ "1" := {[ "abc" := 100 ]} ]} |}.

(** A key whose first character is an ASCII letter: no integer literal,
    for Python as for [py_int]. *)
Definition is_letter (c : Ascii.ascii) : bool :=
  let n := Ascii.N_of_ascii c in
  ((65 <=? n) && (n <=? 90) || (97 <=? n) && (n <=? 122))%N.

Definition starts_with_letter (s : string) : bool :=
  match s with
  | String c _ => is_letter c
  | EmptyString => false
  end.

(** A platform that answers every [create_invite] with the fresh invite
    [P], not used yet. *)
Definition sample_create_invite (max_uses : option Z) (max_age : Z) : create_result :=
  CreateOk (sample_invite "P" 0).

(** Guild 1 with three owners: member 9 owns [A] and [B] (7 uses in all),
    member 8 owns [C] (2 uses), member 7 owns [D] (7 uses); [E] belongs to
    guild 2. *)
Definition sample_board_db : database :=
  {| user_invites :=
       <["A" := sample_row 1 9 4]> (<["B" := sample_row 1 9 3]>
       (<["C" := sample_row 1 8 2]> (<["D" := sample_row 1 7 7]>
       (<["E" := sample_row 2 9 50]> ∅))));
     join_events := [] |}.
(** * Attribution resolver *)

Lemma resolveJoin_cons before inv rest :
  resolveJoin before (inv :: rest) =
    if decide (increased before inv) then Some (inv_code inv)
    else resolveJoin before rest.
Proof. reflexivity. Qed.

Lemma resolveJoin_head_filter before after :
  resolveJoin before after = inv_code <$> head (filter (increased before) after).
Proof.
  induction after as [|inv rest IH]; [done|].
  rewrite resolveJoin_cons, filter_cons.
  destruct (decide (increased before inv)); [done|exact IH].
Qed.

Lemma resolveJoin_None before after :
  resolveJoin before after = None ↔ Forall (λ inv, ¬ increased before inv) after.
Proof.
  induction after as [|inv rest IH].
  - split; [constructor|done].
  - rewrite resolveJoin_cons, Forall_cons.
    destruct (decide (increased before inv)); [|tauto].
    split; [done|]. intros [? _]. contradiction.
Qed.

Lemma resolveJoin_Some before after code :
  resolveJoin before after = Some code ↔
  ∃ pre inv post,
    after = pre ++ inv :: post ∧
    Forall (λ i, ¬ increased before i) pre ∧
    increased before inv ∧ inv_code inv = code.
Proof.
  induction after as [|inv rest IH].
  - split; [done|]. intros (pre & ? & ? & E & _). by destruct pre.
  - rewrite resolveJoin_cons.
    destruct (decide (increased before inv)) as [Hi|Hi].
    + split.
      * intros [= <-]. by exists [], inv, rest.
      * intros (pre & inv' & post & E & Hpre & _ & <-).
        destruct pre as [|p pre]; simplify_eq/=; [done|].
        by apply Forall_cons in Hpre as [? _].
    + rewrite IH. split.
      * intros (pre & inv' & post & -> & Hpre & ? & ?).
        exists (inv :: pre), inv', post. by rewrite Forall_cons.
      * intros (pre & inv' & post & E & Hpre & Hinc & Hc).
        destruct pre as [|p pre]; simplify_eq/=; [done|].
        apply Forall_cons in Hpre as [_ Hpre].
        by exists pre, inv', post.
Qed.

(** C1: the diff of [on_member_join] returns the code of the first invite of
    the fresh list, in list order, whose use count strictly exceeds the
    count of the [before] snapshot for that code (0 when the code is
    missing), and none when there is no such invite; with before
    [{A:5, B:2}] and the fresh list [[{A,5}; {B,3}]] it returns [B]. *)
Theorem resolveJoin_first_increase :
  (∀ before after,
     resolveJoin before after = inv_code <$> head (filter (increased before) after)) ∧
  (∀ before after code,
     resolveJoin before after = Some code ↔
     ∃ pre inv post,
       after = pre ++ inv :: post ∧
       Forall (λ i, ¬ increased before i) pre ∧
       increased before inv ∧ inv_code inv = code) ∧
  resolveJoin (<["A" := 5]> (<["B" := 2]> ∅))
    [ {| inv_code := "A"; inv_uses := Some 5 |};
      {| inv_code := "B"; inv_uses := Some 3 |} ] = Some "B".
Proof.
  split; [exact resolveJoin_head_filter|].
  split; [exact resolveJoin_Some|].
  reflexivity.
Qed.

(** * The join handler *)

Lemma on_member_join_not_determined gd member after now st :
  truthy_str (resolveJoin (before_snapshot gd st) after) = None →
  on_member_join gd member (FetchOk after) now st =
    (with_cache (<[guild_id gd := snapshot_of after]> (invites_cache st)) st,
     NotDetermined).
Proof. unfold on_member_join, before_snapshot. by intros ->. Qed.

Lemma increment_code_use_unfold g code j now db :
  increment_code_use g code j now db =
    sql_insert_join_event g j code now (sql_increment_uses g code db).
Proof. reflexivity. Qed.

Lemma sql_increment_uses_miss g code db :
  sql_select_owner g code db = None → sql_increment_uses g code db = db.
Proof.
  unfold sql_select_owner, sql_increment_uses.
  destruct (user_invites db !! code) as [r|]; [|done].
  by destruct (decide (row_guild_id r = g)).
Qed.

(** A determined code always reaches the ledger, whatever happens to the
    reward afterwards. *)
Lemma on_member_join_determined gd member after now st code :
  truthy_str (resolveJoin (before_snapshot gd st) after) = Some code →
  (on_member_join gd member (FetchOk after) now st).1 =
    {| invites_cache := <[guild_id gd := snapshot_of after]> (invites_cache st);
       store := increment_code_use (guild_id gd) code member now (store st);
       REFERRAL_REWARDS := REFERRAL_REWARDS st |}.
Proof.
  unfold on_member_join, before_snapshot. intros ->.
  destruct (truthy_int _) as [inviter|]; [|done].
  destruct (next_award_roles_for _ _ _) as [[role roles]|e]; done.
Qed.

(** C2: when no invite of the fresh list has a use count above the one of the
    [before] snapshot, the diff returns none, the handler reports the join
    as not determined, and both tables are left as they were: no use count
    is incremented and no join event is appended. *)
Theorem no_increase_no_ledger_mutation gd member after now st :
  Forall (λ inv, ¬ increased (before_snapshot gd st) inv) after →
  resolveJoin (before_snapshot gd st) after = None ∧
  (on_member_join gd member (FetchOk after) now st).2 = NotDetermined ∧
  store (on_member_join gd member (FetchOk after) now st).1 = store st.
Proof.
  intros Hno. apply resolveJoin_None in Hno.
  rewrite on_member_join_not_determined by (by rewrite Hno).
  done.
Qed.

Lemma no_increase_no_ledger_mutation_witness :
  resolveJoin (before_snapshot sample_guild sample_state)
    [sample_invite "A" 5; sample_invite "B" 2] = None ∧
  (on_member_join sample_guild 42
     (FetchOk [sample_invite "A" 5; sample_invite "B" 2]) 1000 sample_state).2
    = NotDetermined ∧
  store (on_member_join sample_guild 42
     (FetchOk [sample_invite "A" 5; sample_invite "B" 2]) 1000 sample_state).1
    = store sample_state.
Proof.
  apply (no_increase_no_ledger_mutation sample_guild 42
           [sample_invite "A" 5; sample_invite "B" 2] 1000 sample_state).
  repeat constructor; vm_compute; discriminate.
Defined.

(** C10: when the resolved code has no row in [user_invites], the handler
    appends the join event for that code, leaves every stored use count as
    it was and issues no role grant. *)
Theorem unregistered_code_event_only gd member after now st code :
  resolveJoin (before_snapshot gd st) after = Some code →
  code ≠ "" →
  user_invites (store st) !! code = None →
  join_events (store (on_member_join gd member (FetchOk after) now st).1) =
    join_events (store st) ++
      [{| ev_guild_id := guild_id gd; ev_joined_user_id := member;
          ev_inviter_code := code; ev_ts := now |}] ∧
  user_invites (store (on_member_join gd member (FetchOk after) now st).1) =
    user_invites (store st) ∧
  (on_member_join gd member (FetchOk after) now st).2 = Attributed code None.
Proof.
  intros Hres Hne Hrow.
  assert (Hsel : sql_select_owner (guild_id gd) code (store st) = None).
  { unfold sql_select_owner. by rewrite Hrow. }
  unfold on_member_join. fold (before_snapshot gd st). rewrite Hres. simpl.
  destruct (decide (code = "")) as [|_]; [done|].
  rewrite increment_code_use_unfold, (sql_increment_uses_miss _ _ _ Hsel).
  assert (Hsel' : sql_select_owner (guild_id gd) code
            (sql_insert_join_event (guild_id gd) member code now (store st)) = None).
  { unfold sql_select_owner. simpl. by rewrite Hrow. }
  rewrite Hsel'. done.
Qed.

Lemma unregistered_code_event_only_witness :
  join_events (store (on_member_join sample_guild 42
     (FetchOk [sample_invite "A" 5; sample_invite "B" 3]) 1000 sample_state).1) =
    [{| ev_guild_id := 1; ev_joined_user_id := 42;
        ev_inviter_code := "B"; ev_ts := 1000 |}] ∧
  user_invites (store (on_member_join sample_guild 42
     (FetchOk [sample_invite "A" 5; sample_invite "B" 3]) 1000 sample_state).1) = ∅ ∧
  (on_member_join sample_guild 42
     (FetchOk [sample_invite "A" 5; sample_invite "B" 3]) 1000 sample_state).2
    = Attributed "B" None.
Proof.
  apply (unregistered_code_event_only sample_guild 42
           [sample_invite "A" 5; sample_invite "B" 3] 1000 sample_state "B").
  - reflexivity.
  - discriminate.
  - reflexivity.
Defined.

(** * Degraded mode *)

Lemma on_member_join_fetch_failed gd member now st :
  on_member_join gd member FetchForbidden now st = (st, FetchFailed LogWarning) ∧
  on_member_join gd member FetchError now st = (st, FetchFailed LogError).
Proof. done. Qed.

Lemma before_snapshot_degraded gd st :
  before_snapshot gd
    (with_cache (refresh_guild_invites (guild_id gd) FetchForbidden (invites_cache st)) st)
  = ∅.
Proof. unfold before_snapshot. simpl. by rewrite lookup_insert_eq. Qed.

Lemma increased_empty inv : increased ∅ inv ↔ 0 < or0 (inv_uses inv).
Proof. unfold increased. by rewrite lookup_empty. Qed.

Lemma resolveJoin_empty_before after :
  resolveJoin ∅ after =
    inv_code <$> head (filter (λ inv, 0 < or0 (inv_uses inv)) after).
Proof.
  induction after as [|inv rest IH]; [done|].
  rewrite resolveJoin_cons, filter_cons.
  destruct (decide (increased ∅ inv)) as [Hi|Hi];
    destruct (decide (0 < or0 (inv_uses inv))) as [Hp|Hp];
    rewrite increased_empty in Hi; done.
Qed.

(** C9, as the code has it: a join handled right after a permission failure
    emptied the guild's cache, with a fetch that now succeeds, is attributed
    to the first listed invite with a positive use count; here a single
    invite [A] with 3 uses is resolved and its join event is stored. *)
Lemma degraded_cache_join_attributed :
  let st := with_cache
              (refresh_guild_invites 1 FetchForbidden (invites_cache sample_state))
              sample_state in
  before_snapshot sample_guild st = ∅ ∧
  resolveJoin (before_snapshot sample_guild st) [sample_invite "A" 3] = Some "A" ∧
  (on_member_join sample_guild 42 (FetchOk [sample_invite "A" 3]) 1000 st).2
    = Attributed "A" None ∧
  join_events (store
    (on_member_join sample_guild 42 (FetchOk [sample_invite "A" 3]) 1000 st).1)
    = [{| ev_guild_id := 1; ev_joined_user_id := 42;
          ev_inviter_code := "A"; ev_ts := 1000 |}].
Proof. repeat split; reflexivity. Qed.

(** C9, amended: once a permission failure has emptied a guild's cache, a
    join in that guild stays unattributed whenever the fresh fetch fails
    (the state is then untouched) or no listed invite has a positive use
    count (the ledger is then untouched); whenever the fetch succeeds, the
    diff resolves to the first listed invite with a positive use count. *)
Theorem degraded_cache_join_resolution gd member now st :
  let st0 := with_cache
               (refresh_guild_invites (guild_id gd) FetchForbidden (invites_cache st))
               st in
  before_snapshot gd st0 = ∅ ∧
  on_member_join gd member FetchForbidden now st0 = (st0, FetchFailed LogWarning) ∧
  on_member_join gd member FetchError now st0 = (st0, FetchFailed LogError) ∧
  (∀ after,
     resolveJoin (before_snapshot gd st0) after =
       inv_code <$> head (filter (λ inv, 0 < or0 (inv_uses inv)) after)) ∧
  (∀ after,
     Forall (λ inv, or0 (inv_uses inv) ≤ 0) after →
     (on_member_join gd member (FetchOk after) now st0).2 = NotDetermined ∧
     store (on_member_join gd member (FetchOk after) now st0).1 = store st).
Proof.
  intros st0.
  assert (Hb : before_snapshot gd st0 = ∅) by apply before_snapshot_degraded.
  split; [exact Hb|].
  split; [apply on_member_join_fetch_failed|].
  split; [apply on_member_join_fetch_failed|].
  split.
  - intros after. rewrite Hb. apply resolveJoin_empty_before.
  - intros after Hzero.
    rewrite on_member_join_not_determined; [done|].
    rewrite Hb.
    replace (resolveJoin ∅ after) with (@None string); [done|].
    symmetry. apply resolveJoin_None.
    eapply Forall_impl; [exact Hzero|].
    intros inv Hle. simpl in Hle. rewrite increased_empty. lia.
Qed.

(** * Referral ledger: single calls *)

Lemma add_or_upsert_invite_owner_unfold g u code db :
  add_or_upsert_invite_owner g u code db = sql_upsert_invite_owner g u code db.
Proof. reflexivity. Qed.

Lemma upsert_lookup_present g u code db old :
  user_invites db !! code = Some old →
  user_invites (add_or_upsert_invite_owner g u code db) !! code =
    Some {| row_guild_id := g; row_user_id := u; row_uses := row_uses old |}.
Proof.
  intros H. rewrite add_or_upsert_invite_owner_unfold.
  unfold sql_upsert_invite_owner. simpl. by rewrite H, lookup_insert_eq.
Qed.

Lemma upsert_lookup_absent g u code db :
  user_invites db !! code = None →
  user_invites (add_or_upsert_invite_owner g u code db) !! code =
    Some {| row_guild_id := g; row_user_id := u; row_uses := 0 |}.
Proof.
  intros H. rewrite add_or_upsert_invite_owner_unfold.
  unfold sql_upsert_invite_owner. simpl. by rewrite H, lookup_insert_eq.
Qed.

Lemma upsert_lookup_other g u code db c :
  c ≠ code →
  user_invites (add_or_upsert_invite_owner g u code db) !! c = user_invites db !! c.
Proof.
  intros H. rewrite add_or_upsert_invite_owner_unfold.
  unfold sql_upsert_invite_owner. simpl. by rewrite lookup_insert_ne.
Qed.

Lemma upsert_join_events g u code db :
  join_events (add_or_upsert_invite_owner g u code db) = join_events db.
Proof. reflexivity. Qed.

Lemma database_eq db1 db2 :
  user_invites db1 = user_invites db2 → join_events db1 = join_events db2 →
  db1 = db2.
Proof. destruct db1, db2. simpl. by intros -> ->. Qed.

Lemma upsert_idempotent g u code db :
  add_or_upsert_invite_owner g u code (add_or_upsert_invite_owner g u code db) =
  add_or_upsert_invite_owner g u code db.
Proof.
  apply database_eq; [|done].
  apply map_eq. intros c. destruct (decide (c = code)) as [->|Hne].
  - destruct (user_invites db !! code) as [old|] eqn:E.
    + pose proof (upsert_lookup_present g u code db old E) as H1.
      by rewrite (upsert_lookup_present g u code _ _ H1), H1.
    + pose proof (upsert_lookup_absent g u code db E) as H1.
      by rewrite (upsert_lookup_present g u code _ _ H1), H1.
  - by rewrite upsert_lookup_other.
Qed.

(** C4: on a code that is already stored, [add_or_upsert_invite_owner]
    re-points the guild and the owner of the row and keeps its use count,
    touches no other row and no join event, and a second call with the same
    arguments changes nothing more. *)
Theorem upsert_preserves_uses g u code db old :
  user_invites db !! code = Some old →
  user_invites (add_or_upsert_invite_owner g u code db) !! code =
    Some {| row_guild_id := g; row_user_id := u; row_uses := row_uses old |} ∧
  (∀ c, c ≠ code →
     user_invites (add_or_upsert_invite_owner g u code db) !! c =
       user_invites db !! c) ∧
  join_events (add_or_upsert_invite_owner g u code db) = join_events db ∧
  add_or_upsert_invite_owner g u code (add_or_upsert_invite_owner g u code db) =
    add_or_upsert_invite_owner g u code db.
Proof.
  intros H. split; [by apply upsert_lookup_present|].
  split; [intros c Hc; by apply upsert_lookup_other|].
  split; [done|apply upsert_idempotent].
Qed.

Lemma upsert_preserves_uses_witness :
  user_invites (add_or_upsert_invite_owner 2 7 "A" sample_db) !! "A" =
    Some (sample_row 2 7 4) ∧
  (∀ c, c ≠ "A" →
     user_invites (add_or_upsert_invite_owner 2 7 "A" sample_db) !! c =
       user_invites sample_db !! c) ∧
  join_events (add_or_upsert_invite_owner 2 7 "A" sample_db) = join_events sample_db ∧
  add_or_upsert_invite_owner 2 7 "A" (add_or_upsert_invite_owner 2 7 "A" sample_db) =
    add_or_upsert_invite_owner 2 7 "A" sample_db.
Proof.
  apply (upsert_preserves_uses 2 7 "A" sample_db (sample_row 1 9 4)).
  reflexivity.
Defined.

(** * Referral ledger: atomicity of [increment_code_use] *)

Lemma run_steps_take_all {A} (steps : list (A → A)) k (a : A) :
  (length steps ≤ k)%nat →
  foldl (λ c step, step c) a (take k steps) = foldl (λ c step, step c) a steps.
Proof. intros H. by rewrite take_ge. Qed.

Lemma sql_increment_uses_join_events g code db :
  join_events (sql_increment_uses g code db) = join_events db.
Proof.
  unfold sql_increment_uses.
  destruct (user_invites db !! code) as [r|]; [|done].
  by destruct (decide (row_guild_id r = g)).
Qed.

(** C3: whichever step of [increment_code_use] an exception interrupts, the
    database that persists is either the one before the call (neither the
    incremented use count nor the join event) or the one a complete call
    leaves (both); a failure between the two statements persists neither. *)
Theorem increment_code_use_atomic k g code j now db :
  increment_code_use_failing_after k g code j now db =
    (if decide (k < 3)%nat then db else increment_code_use g code j now db) ∧
  increment_code_use_failing_after 1 g code j now db = db ∧
  increment_code_use g code j now db =
    {| user_invites := user_invites (sql_increment_uses g code db);
       join_events := join_events db ++
         [{| ev_guild_id := g; ev_joined_user_id := j;
             ev_inviter_code := code; ev_ts := now |}] |}.
Proof.
  split; [|split].
  - destruct (decide (k < 3)%nat) as [Hk|Hk].
    + destruct k as [|[|[|k]]]; [done..|lia].
    + unfold increment_code_use_failing_after, increment_code_use, run_steps.
      rewrite run_steps_take_all; [done|simpl; lia].
  - done.
  - rewrite increment_code_use_unfold. unfold sql_insert_join_event.
    by rewrite sql_increment_uses_join_events.
Qed.

(** What the single final [commit] buys: had the increment been committed
    on its own, a failure before the insert would persist the new use count
    without its join event. *)
Example commit_between_statements_persists_half :
  close (run_steps
           [ execute (sql_increment_uses 1 "A"); commit;
             execute (sql_insert_join_event 1 42 "A" 1000) ]
           (connect sample_db))
  = {| user_invites := {[ "A" := sample_row 1 9 5 ]}; join_events := [] |}.
Proof. reflexivity. Qed.

(** * Referral ledger: use counts against join events *)


Lemma count_events_snoc code events e :
  count_events code (events ++ [e]) =
    (count_events code events + (if decide (ev_inviter_code e = code) then 1 else 0))%nat.
Proof.
  unfold count_events. rewrite filter_app, length_app. f_equal.
  rewrite filter_cons, filter_nil.
  by destruct (decide (ev_inviter_code e = code)).
Qed.

Lemma increment_join_events g code j now db :
  join_events (increment_code_use g code j now db) =
    join_events db ++ [{| ev_guild_id := g; ev_joined_user_id := j;
                          ev_inviter_code := code; ev_ts := now |}].
Proof.
  rewrite increment_code_use_unfold. simpl.
  by rewrite sql_increment_uses_join_events.
Qed.

Lemma increment_lookup_other g code j now db c :
  c ≠ code →
  user_invites (increment_code_use g code j now db) !! c = user_invites db !! c.
Proof.
  intros Hne. rewrite increment_code_use_unfold. simpl.
  unfold sql_increment_uses.
  destruct (user_invites db !! code) as [r|]; [|done].
  destruct (decide (row_guild_id r = g)); [|done].
  simpl. by rewrite lookup_insert_ne.
Qed.

Lemma increment_lookup_hit g code j now db u :
  sql_select_owner g code db = Some u →
  ∃ r, user_invites db !! code = Some r ∧
       user_invites (increment_code_use g code j now db) !! code =
         Some {| row_guild_id := row_guild_id r; row_user_id := row_user_id r;
                 row_uses := row_uses r + 1 |}.
Proof.
  rewrite increment_code_use_unfold. simpl.
  unfold sql_select_owner, sql_increment_uses.
  destruct (user_invites db !! code) as [r|]; [|done].
  destruct (decide (row_guild_id r = g)); [|done].
  intros _. exists r. simpl. by rewrite lookup_insert_eq.
Qed.

Lemma increment_lookup_miss g code j now db :
  sql_select_owner g code db = None →
  user_invites (increment_code_use g code j now db) = user_invites db.
Proof.
  intros H. rewrite increment_code_use_unfold. simpl.
  by rewrite sql_increment_uses_miss.
Qed.

Lemma events_cover_uses_step db c :
  events_cover_uses db → events_cover_uses (ledger_step db c).
Proof.
  intros Hinv. destruct c as [g u code|g code j now]; cbn [ledger_step]; intros c r.
  - rewrite upsert_join_events. destruct (decide (c = code)) as [->|Hne].
    + destruct (user_invites db !! code) as [old|] eqn:E.
      * rewrite (upsert_lookup_present _ _ _ _ _ E). intros [= <-]. simpl.
        by apply Hinv.
      * rewrite (upsert_lookup_absent _ _ _ _ E). intros [= <-]. simpl. lia.
    + rewrite upsert_lookup_other by done. apply Hinv.
  - rewrite increment_join_events, count_events_snoc. cbn [ev_inviter_code].
    destruct (decide (c = code)) as [->|Hne].
    + destruct (decide (code = code)) as [_|]; [|done].
      destruct (sql_select_owner g code db) as [u|] eqn:E.
      * destruct (increment_lookup_hit g code j now db u E) as (old & Ho & ->).
        intros [= <-]. simpl. specialize (Hinv _ _ Ho). lia.
      * rewrite (increment_lookup_miss _ _ _ _ _ E). intros Hr.
        specialize (Hinv _ _ Hr). lia.
    + rewrite increment_lookup_other by done.
      destruct (decide (code = c)) as [->|_]; [done|].
      intros Hr. specialize (Hinv _ _ Hr). lia.
Qed.

Lemma uses_match_events_step db c :
  call_hits c db = true →
  uses_match_events db → uses_match_events (ledger_step db c).
Proof.
  intros Hhit [Hsome Hnone].
  destruct c as [g u code|g code j now]; cbn [ledger_step call_hits] in *.
  - split; intros c.
    + intros r. rewrite upsert_join_events.
      destruct (decide (c = code)) as [->|Hne].
      * destruct (user_invites db !! code) as [old|] eqn:E.
        -- rewrite (upsert_lookup_present _ _ _ _ _ E). intros [= <-]. simpl.
           by apply Hsome.
        -- rewrite (upsert_lookup_absent _ _ _ _ E). intros [= <-]. simpl.
           by rewrite Hnone.
      * rewrite upsert_lookup_other by done. apply Hsome.
    + rewrite upsert_join_events.
      destruct (decide (c = code)) as [->|Hne].
      * destruct (user_invites db !! code) as [old|] eqn:E.
        -- by rewrite (upsert_lookup_present _ _ _ _ _ E).
        -- by rewrite (upsert_lookup_absent _ _ _ _ E).
      * rewrite upsert_lookup_other by done. apply Hnone.
  - apply bool_decide_eq_true in Hhit as [u E].
    destruct (increment_lookup_hit g code j now db u E) as (old & Ho & Hn).
    split; intros c.
    + intros r. rewrite increment_join_events, count_events_snoc. cbn [ev_inviter_code].
      destruct (decide (c = code)) as [->|Hne].
      * rewrite Hn. intros [= <-]. simpl.
        destruct (decide (code = code)) as [_|]; [|done].
        rewrite (Hsome _ _ Ho). lia.
      * rewrite increment_lookup_other by done.
        destruct (decide (code = c)) as [->|_]; [done|].
        intros Hr. rewrite (Hsome _ _ Hr). lia.
    + rewrite increment_join_events, count_events_snoc. cbn [ev_inviter_code].
      destruct (decide (c = code)) as [->|Hne].
      * by rewrite Hn.
      * rewrite increment_lookup_other by done.
        destruct (decide (code = c)) as [->|_]; [done|].
        intros Hr. rewrite (Hnone _ Hr). lia.
Qed.

Lemma events_cover_uses_run calls db :
  events_cover_uses db → events_cover_uses (ledger_run calls db).
Proof.
  revert db. induction calls as [|c calls IH]; intros db Hinv; [done|].
  simpl. apply IH. by apply events_cover_uses_step.
Qed.

Lemma uses_match_events_run calls db :
  every_use_hits calls db = true →
  uses_match_events db → uses_match_events (ledger_run calls db).
Proof.
  revert db. induction calls as [|c calls IH]; intros db Hhits Hinv; [done|].
  simpl in *. apply andb_prop in Hhits as [Hc Hrest].
  apply IH; [done|]. by apply uses_match_events_step.
Qed.

Lemma events_cover_uses_empty : events_cover_uses empty_db.
Proof. intros code r. simpl. by rewrite lookup_empty. Qed.

Lemma uses_match_events_empty : uses_match_events empty_db.
Proof. split; [intros code r; simpl; by rewrite lookup_empty|done]. Qed.

(** C5, as the code has it: a join recorded for a code that has no row yet,
    followed by the registration of that code, leaves a row with use count
    0 and one join event attributed to its code. *)
Lemma uses_below_events_after_late_registration :
  user_invites
    (ledger_run [RecordUse 1 "A" 42 1000; RegisterOwnership 1 9 "A"] empty_db)
    !! "A" = Some (sample_row 1 9 0) ∧
  count_events "A"
    (join_events
       (ledger_run [RecordUse 1 "A" 42 1000; RegisterOwnership 1 9 "A"] empty_db))
    = 1%nat ∧
  ¬ uses_cover_events
      (ledger_run [RecordUse 1 "A" 42 1000; RegisterOwnership 1 9 "A"] empty_db).
Proof.
  split; [reflexivity|]. split; [reflexivity|].
  intros H. specialize (H "A" (sample_row 1 9 0) eq_refl).
  vm_compute in H. by apply H.
Qed.

(** C5, amended: in every state reached from the empty store by
    [registerOwnership] and [recordUse] calls, each invite's stored use
    count is at most the number of join events attributed to its code, and
    equals it when every [recordUse] call was for a code registered in the
    call's guild at that time. *)
Theorem uses_bounded_by_events calls code r :
  user_invites (ledger_run calls empty_db) !! code = Some r →
  row_uses r ≤
    Z.of_nat (count_events code (join_events (ledger_run calls empty_db))) ∧
  (every_use_hits calls empty_db = true →
   row_uses r =
     Z.of_nat (count_events code (join_events (ledger_run calls empty_db)))).
Proof.
  intros Hr. split.
  - by apply (events_cover_uses_run calls empty_db events_cover_uses_empty).
  - intros Hhits.
    by apply (uses_match_events_run calls empty_db Hhits uses_match_events_empty).
Qed.

Lemma uses_bounded_by_events_witness :
  row_uses (sample_row 1 9 1) ≤
    Z.of_nat (count_events "A" (join_events
      (ledger_run [RegisterOwnership 1 9 "A"; RecordUse 1 "A" 42 1000] empty_db))) ∧
  (every_use_hits [RegisterOwnership 1 9 "A"; RecordUse 1 "A" 42 1000] empty_db
     = true →
   row_uses (sample_row 1 9 1) =
     Z.of_nat (count_events "A" (join_events
       (ledger_run [RegisterOwnership 1 9 "A"; RecordUse 1 "A" 42 1000] empty_db)))).
Proof.
  apply (uses_bounded_by_events
           [RegisterOwnership 1 9 "A"; RecordUse 1 "A" 42 1000]
           "A" (sample_row 1 9 1)).
  reflexivity.
Defined.

(** * Referral ledger: totals *)

Lemma or0_Some n : or0 (Some n) = n.
Proof. unfold or0. by destruct (decide (n = 0)) as [->|]. Qed.

Lemma sql_sum_uses_foldr g u db :
  sql_sum_uses g u db =
    foldr Z.add 0
      (row_uses <$> filter (owned_by g u) (map_to_list (user_invites db)).*2).
Proof.
  unfold sql_sum_uses. fold (owned_by g u).
  by destruct (filter (owned_by g u) (map_to_list (user_invites db)).*2).
Qed.

Lemma foldr_owned_uses g u (l : list (string * invite_row)) :
  foldr (uncurry (λ (_ : string) r acc,
           if decide (owned_by g u r) then row_uses r + acc else acc)) 0 l =
  foldr Z.add 0 (row_uses <$> filter (owned_by g u) l.*2).
Proof.
  induction l as [|[c r] l IH]; [done|].
  cbn [foldr uncurry fmap list_fmap snd]. rewrite filter_cons, IH.
  by destruct (decide (owned_by g u r)).
Qed.

Lemma total_referrals_sum g u db :
  get_member_total_referrals g u db = sum_owned_uses g u db.
Proof.
  unfold get_member_total_referrals, sum_owned_uses.
  by rewrite or0_Some, sql_sum_uses_foldr, map_fold_foldr, foldr_owned_uses.
Qed.

Lemma filter_none {A} (P : A → Prop) `{!∀ x, Decision (P x)} (l : list A) :
  Forall (λ x, ¬ P x) l → filter P l = [].
Proof.
  induction 1 as [|x l Hx _ IH]; [done|].
  rewrite filter_cons. by destruct (decide (P x)).
Qed.

Lemma total_referrals_no_invite g u db :
  (∀ code r, user_invites db !! code = Some r → ¬ owned_by g u r) →
  get_member_total_referrals g u db = 0.
Proof.
  intros Hnone. unfold get_member_total_referrals.
  rewrite or0_Some, sql_sum_uses_foldr.
  replace (filter (owned_by g u) (map_to_list (user_invites db)).*2)
    with (@nil invite_row); [done|].
  symmetry. apply filter_none. apply Forall_forall. intros r Hr.
  apply list_elem_of_fmap in Hr as ([code r'] & -> & Hr).
  apply elem_of_map_to_list in Hr. by apply (Hnone code).
Qed.

(** The sum the specification speaks of, one invite at a time. *)
Lemma sum_owned_uses_empty g u : sum_owned_uses g u empty_db = 0.
Proof. unfold sum_owned_uses. simpl. by rewrite map_fold_empty. Qed.

Lemma sum_owned_uses_insert g u code r invites events :
  invites !! code = None →
  sum_owned_uses g u {| user_invites := <[code := r]> invites; join_events := events |} =
    (if decide (owned_by g u r) then row_uses r else 0) +
    sum_owned_uses g u {| user_invites := invites; join_events := events |}.
Proof.
  intros Hfresh. unfold sum_owned_uses. simpl.
  rewrite map_fold_insert_L; [by destruct (decide (owned_by g u r))| |done].
  intros j1 j2 z1 z2 y _ _ _.
  destruct (decide (owned_by g u z1)), (decide (owned_by g u z2)); lia.
Qed.

(** C7: after any sequence of [registerOwnership] and [recordUse] calls,
    from any store, [get_member_total_referrals] returns the sum of the
    stored use counts over the invites the user owns in the guild, and 0
    when the user owns no invite there. *)
Theorem total_referrals_is_sum_of_owned_uses calls db0 g u :
  get_member_total_referrals g u (ledger_run calls db0) =
    sum_owned_uses g u (ledger_run calls db0) ∧
  ((∀ code r, user_invites (ledger_run calls db0) !! code = Some r →
      ¬ owned_by g u r) →
   get_member_total_referrals g u (ledger_run calls db0) = 0).
Proof.
  split; [apply total_referrals_sum|apply total_referrals_no_invite].
Qed.

(** Totals on a small store: user 9 owns [A] and [B] in guild 1, user 8
    owns [C]; two joins through [A] and one through [C]. *)
Example total_referrals_sample :
  let db := ledger_run
    [RegisterOwnership 1 9 "A"; RegisterOwnership 1 9 "B";
     RegisterOwnership 1 8 "C"; RecordUse 1 "A" 41 1000;
     RecordUse 1 "C" 42 1001; RecordUse 1 "A" 43 1002] empty_db in
  get_member_total_referrals 1 9 db = 2 ∧
  get_member_total_referrals 1 8 db = 1 ∧
  get_member_total_referrals 1 7 db = 0 ∧
  get_member_total_referrals 2 9 db = 0.
Proof. repeat split; vm_compute; reflexivity. Qed.

(** * Reward policy *)

Lemma utf8_decode_ascii b s :
  (Ascii.N_of_ascii b <? 128)%N = true →
  utf8_decode (String b s) = cons (Ascii.N_of_ascii b) <$> utf8_decode s.
Proof. intros H. simpl. by rewrite H. Qed.

Lemma utf8_decode_uint d :
  utf8_decode (NilEmpty.string_of_uint d) = Some (uint_codes d).
Proof.
  induction d; cbn [NilEmpty.string_of_uint uint_codes]; [done|..];
    rewrite utf8_decode_ascii by reflexivity; by rewrite IHd.
Qed.

Lemma to_ascii_uint_codes d :
  to_ascii_decimal_and_space <$> uint_codes d = uint_codes d.
Proof.
  induction d; cbn [uint_codes]; [done|..];
    rewrite fmap_cons, IHd; reflexivity.
Qed.

Lemma skip_spaces_uint_codes d : skip_spaces (uint_codes d) = uint_codes d.
Proof. destruct d; reflexivity. Qed.

Lemma digits_value_uint d acc after_digit :
  d ≠ Decimal.Nil ∨ after_digit = true →
  digits_value acc after_digit (uint_codes d) = Some (uint_value acc d).
Proof.
  revert acc after_digit. induction d; intros acc after_digit Hd;
    cbn [uint_codes uint_value];
    [by destruct Hd as [?| ->]|..];
    (change (digits_value acc after_digit (?c :: uint_codes d))
       with (digits_value (10 * acc + Z.of_N (c - 48)) true (uint_codes d));
     apply IHd; by right).
Qed.

Lemma of_uint_acc_value d acc :
  Z.pos (Pos.of_uint_acc d acc) = uint_value (Z.pos acc) d.
Proof.
  revert acc. induction d; intros acc; cbn [Pos.of_uint_acc uint_value];
    [done|..]; rewrite IHd; f_equal; lia.
Qed.

Lemma of_uint_value d : Z.of_N (Pos.of_uint d) = uint_value 0 d.
Proof.
  induction d; cbn [Pos.of_uint uint_value]; [done|exact IHd|..];
    cbn [Z.of_N]; by rewrite of_uint_acc_value.
Qed.

Lemma py_int_unsigned s cps c r :
  utf8_decode s = Some cps →
  skip_spaces (to_ascii_decimal_and_space <$> cps) = c :: r →
  py_isdigit c = true →
  py_int s = match digits_value 0 false (c :: r) with
             | Some n => Ok n
             | None => Raise ValueError
             end.
Proof.
  intros Hs Hl Hc. unfold py_int. rewrite Hs, Hl.
  unfold py_isdigit in Hc. apply andb_prop in Hc as [H1 H2].
  apply N.leb_le in H1. apply N.leb_le in H2.
  replace (c =? 43)%N with false by (symmetry; apply N.eqb_neq; lia).
  replace (c =? 45)%N with false by (symmetry; apply N.eqb_neq; lia).
  cbn [fst snd]. by destruct (digits_value 0 false (c :: r)).
Qed.

Lemma py_int_negative s cps r :
  utf8_decode s = Some cps →
  skip_spaces (to_ascii_decimal_and_space <$> cps) = 45%N :: r →
  py_int s = match digits_value 0 false r with
             | Some n => Ok (- n)
             | None => Raise ValueError
             end.
Proof.
  intros Hs Hl. unfold py_int. rewrite Hs, Hl. cbn [N.eqb Pos.eqb fst snd].
  by destruct (digits_value 0 false r).
Qed.

(** [int] reads back what [str] writes: an unsigned numeral first. *)
Lemma py_int_uint d (negative : bool) :
  d ≠ Decimal.Nil →
  py_int (if negative
          then String (Ascii.Ascii true false true true false true false false)
                 (NilEmpty.string_of_uint d)
          else NilEmpty.string_of_uint d) =
    Ok (if negative then - Z.of_N (Pos.of_uint d) else Z.of_N (Pos.of_uint d)).
Proof.
  intros Hd. destruct negative.
  - rewrite (py_int_negative _ (45%N :: uint_codes d) (uint_codes d)).
    + rewrite digits_value_uint by (by left). by rewrite of_uint_value.
    + rewrite utf8_decode_ascii by reflexivity. by rewrite utf8_decode_uint.
    + rewrite fmap_cons, to_ascii_uint_codes. reflexivity.
  - assert (∃ c r, uint_codes d = c :: r ∧ py_isdigit c = true) as (c & r & Hcr & Hc).
    { destruct d; [done|..]; by eexists _, _. }
    rewrite (py_int_unsigned _ (uint_codes d) c r);
      [|apply utf8_decode_uint
       |by rewrite to_ascii_uint_codes, skip_spaces_uint_codes|done].
    rewrite <- Hcr, digits_value_uint by (by left). by rewrite of_uint_value.
Qed.

Lemma py_int_py_str z : py_int (py_str z) = Ok z.
Proof.
  destruct z as [|p|p]; [reflexivity|..].
  - pose proof (DecimalPos.Unsigned.to_uint_nonnil p) as Hd.
    unfold py_str. cbn [Z.to_int NilZero.string_of_int].
    replace (NilZero.string_of_uint (Pos.to_uint p))
      with (NilEmpty.string_of_uint (Pos.to_uint p))
      by (unfold NilZero.string_of_uint; by destruct (Pos.to_uint p)).
    rewrite (py_int_uint _ false Hd).
    by rewrite DecimalPos.Unsigned.of_to.
  - pose proof (DecimalPos.Unsigned.to_uint_nonnil p) as Hd.
    unfold py_str. cbn [Z.to_int NilZero.string_of_int].
    replace (NilZero.string_of_uint (Pos.to_uint p))
      with (NilEmpty.string_of_uint (Pos.to_uint p))
      by (unfold NilZero.string_of_uint; by destruct (Pos.to_uint p)).
    rewrite (py_int_uint _ true Hd).
    by rewrite DecimalPos.Unsigned.of_to.
Qed.

#[global] Instance py_str_inj : Inj (=) (=) py_str.
Proof.
  intros x y H. assert (Ok x = Ok y) as [= ->]; [|done].
  by rewrite <- !py_int_py_str, H.
Qed.

Lemma mapM_result_Ok {A B} (f : A → result B) (l : list A) :
  Forall (λ x, ∃ y, f x = Ok y) l →
  ∃ ys, mapM f l = Ok ys ∧ Forall2 (λ x y, f x = Ok y) l ys.
Proof.
  induction 1 as [|x l [y Hy] _ (ys & Hys & HF)].
  - by exists [].
  - exists (y :: ys). split; [|by constructor].
    cbn. rewrite Hy. cbn. by rewrite Hys.
Qed.

Lemma foldl_max_spec t0 rest :
  foldl Z.max t0 rest ∈ t0 :: rest ∧
  ∀ t, t ∈ t0 :: rest → t ≤ foldl Z.max t0 rest.
Proof.
  revert t0. induction rest as [|t1 rest IH]; intros t0; simpl.
  - split; [by left|]. intros t Ht. apply list_elem_of_singleton in Ht. lia.
  - destruct (IH (Z.max t0 t1)) as [Hin Hmax]. split.
    + apply elem_of_cons in Hin as [Heq|Hin]; [|by do 2 right].
      rewrite Heq. destruct (Z.max_spec t0 t1) as [[_ ->]|[_ ->]];
        [right; left|left]; done.
    + intros t Ht.
      assert (Z.max t0 t1 ≤ foldl Z.max (Z.max t0 t1) rest) by (apply Hmax; left).
      apply elem_of_cons in Ht as [->|Ht]; [lia|].
      apply elem_of_cons in Ht as [->|Ht]; [lia|].
      apply Hmax. by right.
Qed.

(** The thresholds [next_award_roles_for] reads off an encoded policy are
    exactly the thresholds of the policy. *)
Lemma encoded_thresholds (policy : gmap Z Z) :
  ∃ ts, mapM py_int (map_to_list (encode_policy policy)).*1 = Ok ts ∧
        ∀ t, t ∈ ts ↔ is_Some (policy !! t).
Proof.
  destruct (mapM_result_Ok py_int (map_to_list (encode_policy policy)).*1)
    as (ts & Hts & HF).
  { apply Forall_forall. intros k Hk.
    apply list_elem_of_fmap in Hk as ([k' v] & -> & Hk).
    apply elem_of_map_to_list, lookup_kmap_Some in Hk as (i & -> & _); [|apply _].
    exists i. apply py_int_py_str. }
  exists ts. split; [done|]. intros t. split.
  - intros Ht. apply list_elem_of_lookup in Ht as [n Hn].
    destruct (Forall2_lookup_r _ _ _ _ _ HF Hn) as (k & Hk & Hkt).
    apply list_elem_of_lookup_2, list_elem_of_fmap in Hk as ([k' v] & -> & Hk).
    apply elem_of_map_to_list, lookup_kmap_Some in Hk as (i & Hi & Hv); [|apply _].
    simpl in *. subst k'. rewrite py_int_py_str in Hkt.
    injection Hkt as ->. by exists v.
  - intros [v Hv].
    assert (py_str t ∈ (map_to_list (encode_policy policy)).*1) as Hk.
    { apply list_elem_of_fmap. exists (py_str t, v). split; [done|].
      apply elem_of_map_to_list. unfold encode_policy. by rewrite lookup_kmap by apply _. }
    apply list_elem_of_lookup in Hk as [n Hn].
    destruct (Forall2_lookup_l _ _ _ _ _ HF Hn) as (t' & Ht' & Hkt).
    rewrite py_int_py_str in Hkt. injection Hkt as ->.
    by apply list_elem_of_lookup_2 in Ht'.
Qed.

Lemma bind_Ok {A B} (a : A) (k : A → result B) : Ok a ≫= k = k a.
Proof. reflexivity. Qed.

Lemma getitem_encode_policy (policy : gmap Z Z) t :
  getitem (encode_policy policy) (py_str t) =
    match policy !! t with
    | Some role => Ok role
    | None => Raise KeyError
    end.
Proof. unfold getitem, encode_policy. by rewrite lookup_kmap by apply _. Qed.

Lemma next_award_roles_for_unfold rewards g total :
  next_award_roles_for rewards g total =
    if decide (guild_mapping rewards g = ∅) then Ok (None, [])
    else mapM py_int (map_to_list (guild_mapping rewards g)).*1 ≫=
           award_from_thresholds (guild_mapping rewards g) total.
Proof.
  unfold next_award_roles_for, guild_mapping, award_from_thresholds.
  destruct (decide (default ∅ (rewards !! py_str g) = ∅)); [done|].
  destruct (mapM py_int (map_to_list (default ∅ (rewards !! py_str g))).*1)
    as [ts|e]; [|done].
  rewrite !bind_Ok.
  by destruct (filter (λ t, t ≤ total) (merge_sort Z.le ts)).
Qed.





(** * Reward configuration *)

Lemma mapM_result_cases {A B} (f : A → result B) (l : list A) :
  (∃ ys, mapM f l = Ok ys ∧ Forall2 (λ x y, f x = Ok y) l ys) ∨
  (∃ e, mapM f l = Raise e ∧ Exists (λ x, f x = Raise e) l).
Proof.
  induction l as [|x l IH].
  - left. by exists [].
  - cbn. destruct (f x) as [y|e] eqn:Hx.
    + rewrite bind_Ok. destruct IH as [(ys & -> & HF)|(e & -> & HE)].
      * left. exists (y :: ys). split; [done|]. by constructor.
      * right. exists e. split; [done|]. by right.
    + right. exists e. split; [done|]. by left.
Qed.

Lemma convert_mapping_valid mapping :
  valid_entry mapping = true ↔ ∃ m, convert_mapping mapping = Ok m.
Proof.
  unfold convert_mapping. destruct mapping as [| | | | | |items];
    try (split; [done|by intros [? ?]]).
  cbn [py_items valid_entry]. rewrite bind_Ok, forallb_forall.
  destruct (mapM_result_cases
              (λ kv : string * pyval, py_int_of kv.2 ≫= λ n, Ok (kv.1, n)) items)
    as [(vs & -> & HF)|(e & -> & HE)].
  - split; [by eexists|]. intros _ kv Hkv%list_elem_of_In.
    apply list_elem_of_lookup in Hkv as [i Hi].
    destruct (Forall2_lookup_l _ _ _ _ _ HF Hi) as (v & _ & Hv).
    unfold convertible. by destruct (py_int_of kv.2).
  - split; [|by intros [? ?]]. intros Hall.
    apply Exists_exists in HE as (kv & Hkv%list_elem_of_In & Hraise).
    specialize (Hall _ Hkv). unfold convertible in Hall.
    by destruct (py_int_of kv.2).
Qed.

Lemma foldl_insert_is_Some {V} (l : list (string * V)) (m : gmap string V) g :
  is_Some (foldl (λ d gm, <[gm.1 := gm.2]> d) m l !! g) ↔
  is_Some (m !! g) ∨ g ∈ l.*1.
Proof.
  revert m. induction l as [|[k v] l IH]; intros m; simpl.
  - rewrite elem_of_nil. tauto.
  - rewrite IH, elem_of_cons, lookup_insert_is_Some.
    destruct (decide (k = g)); intuition (subst; auto).
Qed.

Lemma foldl_insert_Some {V} (l : list (string * V)) (m : gmap string V) g v :
  foldl (λ d gm, <[gm.1 := gm.2]> d) m l !! g = Some v →
  m !! g = Some v ∨ (g, v) ∈ l.
Proof.
  revert m. induction l as [|[k w] l IH]; intros m; simpl; [by left|].
  intros [H|H]%IH; [|by do 2 right].
  apply lookup_insert_Some in H as [[-> ->]|[_ H]]; [right; left|left]; done.
Qed.

Lemma convert_mapping_Ok entry m :
  convert_mapping entry = Ok m →
  (∀ k, is_Some (m !! k) ↔ k ∈ (items_of entry).*1) ∧
  (∀ k n, m !! k = Some n →
     ∃ v, (k, v) ∈ items_of entry ∧ py_int_of v = Ok n).
Proof.
  unfold convert_mapping. destruct entry as [| | | | | |items]; try done.
  cbn [py_items items_of]. rewrite bind_Ok.
  destruct (mapM_result_cases
              (λ kv : string * pyval, py_int_of kv.2 ≫= λ n, Ok (kv.1, n)) items)
    as [(vs & -> & HF)|(e & -> & _)]; [|done].
  rewrite bind_Ok. intros [= <-]. split.
  - intros k. rewrite foldl_insert_is_Some, lookup_empty, is_Some_alt.
    assert (Heq : vs.*1 = items.*1).
    { clear -HF. induction HF as [|[k1 v1] [k2 n2] items vs H _ IH]; [done|].
      rewrite !fmap_cons. cbn [fst snd] in *.
      destruct (py_int_of v1); [|done].
      rewrite bind_Ok in H. injection H as -> ->. by rewrite IH. }
    rewrite Heq. tauto.
  - intros k n Hk.
    apply foldl_insert_Some in Hk as [Hk|Hk]; [by rewrite lookup_empty in Hk|].
    apply list_elem_of_lookup in Hk as [i Hi].
    destruct (Forall2_lookup_r _ _ _ _ _ HF Hi) as ([k' v] & Hv & Hconv).
    cbn [fst snd] in Hconv. destruct (py_int_of v) as [n'|] eqn:Hn; [|done].
    rewrite bind_Ok in Hconv. injection Hconv as -> ->.
    exists v. split; [by eapply list_elem_of_lookup_2|done].
Qed.

Lemma convert_config_cases data :
  if valid_config data
  then ∃ cfg, convert_config data = Ok cfg ∧
              (∀ g, is_Some (cfg !! g) ↔ g ∈ (items_of data).*1) ∧
              (∀ g m, cfg !! g = Some m →
                 ∃ entry, (g, entry) ∈ items_of data ∧ convert_mapping entry = Ok m)
  else ∃ e, convert_config data = Raise e.
Proof.
  unfold convert_config. destruct data as [| | | | | |items];
    try (by eexists).
  cbn [py_items valid_config items_of]. rewrite bind_Ok.
  destruct (mapM_result_cases
              (λ gm : string * pyval, convert_mapping gm.2 ≫= λ m, Ok (gm.1, m)) items)
    as [(ms & -> & HF)|(e & -> & HE)].
  - replace (forallb (λ gm, valid_entry gm.2) items) with true.
    + eexists. split; [done|]. split; [|intros g m Hg]; last first.
      { apply foldl_insert_Some in Hg as [Hg|Hg]; [by rewrite lookup_empty in Hg|].
        apply list_elem_of_lookup in Hg as [i Hi].
        destruct (Forall2_lookup_r _ _ _ _ _ HF Hi) as ([g' entry] & Hentry & Hconv).
        cbn [fst snd] in Hconv. destruct (convert_mapping entry) as [m'|] eqn:Hc; [|done].
        rewrite bind_Ok in Hconv. injection Hconv as -> ->.
        exists entry. split; [by eapply list_elem_of_lookup_2|done]. }
      intros g.
      rewrite foldl_insert_is_Some, lookup_empty, is_Some_alt.
      assert (Heq : ms.*1 = items.*1).
      { clear -HF. induction HF as [|[g1 e1] [g2 m2] items ms H _ IH]; [done|].
        rewrite !fmap_cons. cbn [fst snd] in *.
        destruct (convert_mapping e1); [|done].
        rewrite bind_Ok in H. injection H as -> ->. by rewrite IH. }
      rewrite Heq. tauto.
    + symmetry. apply forallb_forall. intros gm Hgm%list_elem_of_In.
      apply list_elem_of_lookup in Hgm as [i Hi].
      destruct (Forall2_lookup_l _ _ _ _ _ HF Hi) as (m & _ & Hm).
      apply convert_mapping_valid. destruct (convert_mapping gm.2); [by eexists|done].
  - replace (forallb (λ gm, valid_entry gm.2) items) with false; [by eexists|].
    symmetry. apply not_true_is_false. rewrite forallb_forall. intros Hall.
    apply Exists_exists in HE as (gm & Hgm%list_elem_of_In & Hraise).
    specialize (Hall _ Hgm). apply convert_mapping_valid in Hall as [m Hm].
    by rewrite Hm in Hraise.
Qed.

(** C8, as the code has it: with guild 1 well configured and guild 2
    mapping a threshold to [null], the load returns the empty configuration
    and guild 1 has lost its entry, which it keeps when loaded alone. *)
Lemma invalid_entry_drops_every_guild :
  valid_entry (PDict [("5", PInt 100)]) = true ∧
  (load_rewards_config
     (EnvText (Some (PDict [("1", PDict [("5", PInt 100)])])))).1 !! "1"
    = Some {[ "5" := 100 ]} ∧
  load_rewards_config (EnvText (Some sample_mixed_config)) = (∅, [LogError]) ∧
  (load_rewards_config (EnvText (Some sample_mixed_config))).1 !! "1" = None.
Proof. repeat split; reflexivity. Qed.

(** C8, amended: parsing the reward configuration never raises; when any
    guild's entry is invalid (or the text is not a JSON object of objects),
    the whole configuration, every guild's, is replaced by the empty one
    with an error diagnostic; when every entry is valid, every listed guild
    is loaded with no diagnostic, its mapping holding exactly the keys of
    its entry, each with the integer [int()] makes of its value. *)
Theorem load_rewards_config_all_or_nothing data :
  (if valid_config data
   then ∃ cfg,
     load_rewards_config (EnvText (Some data)) = (cfg, []) ∧
     (∀ g, is_Some (cfg !! g) ↔ g ∈ (items_of data).*1) ∧
     (∀ g m, cfg !! g = Some m →
        ∃ entry, (g, entry) ∈ items_of data ∧
          (∀ k, is_Some (m !! k) ↔ k ∈ (items_of entry).*1) ∧
          (∀ k n, m !! k = Some n →
             ∃ v, (k, v) ∈ items_of entry ∧ py_int_of v = Ok n))
   else load_rewards_config (EnvText (Some data)) = (∅, [LogError])) ∧
  load_rewards_config (EnvText None) = (∅, [LogError]) ∧
  load_rewards_config EnvBlank = (∅, []).
Proof.
  split; [|done].
  pose proof (convert_config_cases data) as H. unfold load_rewards_config.
  destruct (valid_config data).
  - destruct H as (cfg & -> & Hdom & Hentry). exists cfg.
    split; [done|]. split; [done|]. intros g m Hg.
    destruct (Hentry g m Hg) as (entry & Hin & Hconv).
    exists entry. split; [done|]. by apply convert_mapping_Ok.
  - by destruct H as (e & ->).
Qed.

(** * The model on concrete inputs *)

Example py_str_values :
  py_str 10 = "10" ∧ py_str 0 = "0" ∧ py_str (-7) = "-7".
Proof. repeat split; reflexivity. Qed.

Example py_int_values :
  py_int "10" = Ok 10 ∧ py_int "05" = Ok 5 ∧ py_int "-7" = Ok (-7) ∧
  py_int "" = Raise ValueError ∧ py_int "abc" = Raise ValueError.
Proof. repeat split; reflexivity. Qed.

(** Blanks around the digits, a plus sign, single underscores between
    digits and the digits of other scripts are read; a doubled, leading or
    trailing underscore, a blank after the sign and a blank between digits
    are not. *)
Example py_int_lenient_values :
  py_int " 100" = Ok 100 ∧ py_int "100 " = Ok 100 ∧ py_int "+5" = Ok 5 ∧
  py_int "1_000" = Ok 1000 ∧ py_int "٤٢" = Ok 42 ∧ py_int "-0" = Ok 0 ∧
  py_int "1__0" = Raise ValueError ∧ py_int "_1" = Raise ValueError ∧
  py_int "1_" = Raise ValueError ∧ py_int "+ 5" = Raise ValueError ∧
  py_int "5 5" = Raise ValueError ∧ py_int "0x10" = Raise ValueError.
Proof. repeat split; vm_compute; reflexivity. Qed.

(** A role id written as a string with a leading blank is valid and is
    loaded as its integer. *)
Example load_rewards_config_blank_role :
  load_rewards_config
    (EnvText (Some (PDict [("1", PDict [("5", PStr " 100")])]))) =
  ({[ "1" := {[ "5" := 100 ]} ]}, []).
Proof. vm_compute. reflexivity. Qed.

(** A threshold key with a plus sign is read by [int()]; below the
    threshold nothing is looked up, at the threshold [str(5)] is not found. *)
Example next_award_roles_for_plus_key :
  next_award_roles_for {[ "1" := {[ "+5" := 7 ]} ]} 1 4 = Ok (None, []) ∧
  next_award_roles_for {[ "1" := {[ "+5" := 7 ]} ]} 1 5 = Raise KeyError.
Proof. split; vm_compute; reflexivity. Qed.

(** A threshold key that is not the decimal string of its integer is read
    by [int()] but not found again through [str()]. *)
Example next_award_roles_for_padded_key :
  next_award_roles_for {[ "1" := {[ "05" := 7 ]} ]} 1 5 = Raise KeyError ∧
  next_award_roles_for {[ "1" := {[ "abc" := 7 ]} ]} 1 5 = Raise ValueError.
Proof. split; vm_compute; reflexivity. Qed.

(** A join through the registered code [B]: its use count goes from 0 to 1,
    the join event is stored, and the first tier is granted to its owner. *)
Example on_member_join_registered_code :
  let r := on_member_join sample_guild 42
             (FetchOk [sample_invite "A" 5; sample_invite "B" 3]) 1000
             sample_registered_state in
  r.2 = Attributed "B" (Some (9, 100)) ∧
  user_invites (store r.1) !! "B" = Some (sample_row 1 9 1) ∧
  join_events (store r.1) =
    [{| ev_guild_id := 1; ev_joined_user_id := 42;
        ev_inviter_code := "B"; ev_ts := 1000 |}] ∧
  invites_cache r.1 !! 1 = Some (<["A" := 5]> (<["B" := 3]> ∅)).
Proof. repeat split; vm_compute; reflexivity. Qed.

(** An empty code is not determined, whatever its use count. *)
Example on_member_join_empty_code :
  (on_member_join sample_guild 42
     (FetchOk [sample_invite "" 5; sample_invite "B" 3]) 1000
     sample_registered_state).2 = NotDetermined.
Proof. reflexivity. Qed.

(** * Invites cache: snapshots and incremental updates *)

Lemma snapshot_of_snoc invs inv :
  snapshot_of (invs ++ [inv]) =
    <[inv_code inv := or0 (inv_uses inv)]> (snapshot_of invs).
Proof. unfold snapshot_of. by rewrite foldl_snoc. Qed.

(** X1: the snapshot built from an invite list maps a code to the use
    count ([None] read as 0) of the last listed invite with that code, and
    has no entry for a code that is not listed. *)
Theorem snapshot_of_lookup invs code :
  snapshot_of invs !! code =
    (λ inv, or0 (inv_uses inv)) <$> last (filter (λ inv, inv_code inv = code) invs).
Proof.
  induction invs as [|inv invs IH] using rev_ind; [done|].
  rewrite snapshot_of_snoc, filter_app, filter_cons, filter_nil.
  destruct (decide (inv_code inv = code)) as [->|Hne].
  - by rewrite lookup_insert_eq, last_snoc.
  - by rewrite lookup_insert_ne, app_nil_r.
Qed.

Lemma snapshot_of_lookup_NoDup invs inv :
  NoDup (inv_code <$> invs) → inv ∈ invs →
  snapshot_of invs !! inv_code inv = Some (or0 (inv_uses inv)).
Proof.
  induction invs as [|i invs IH] using rev_ind; [by intros _ ?%elem_of_nil|].
  rewrite fmap_app, snapshot_of_snoc. intros Hnd Hin.
  apply NoDup_app in Hnd as (Hnd & Hdisj & _).
  apply elem_of_app in Hin as [Hin|Hin%list_elem_of_singleton].
  - rewrite lookup_insert_ne; [by apply IH|].
    intros Heq. apply (Hdisj (inv_code inv)).
    + apply list_elem_of_fmap. by exists inv.
    + rewrite <- Heq. by left.
  - subst. by rewrite lookup_insert_eq.
Qed.

Lemma snapshot_of_filter_ne invs code :
  snapshot_of (filter (λ i, inv_code i ≠ code) invs) = delete code (snapshot_of invs).
Proof.
  induction invs as [|inv invs IH] using rev_ind; [symmetry; apply delete_empty|].
  rewrite filter_app, filter_cons, filter_nil, snapshot_of_snoc.
  destruct (decide (inv_code inv ≠ code)) as [Hne|Heq].
  - by rewrite snapshot_of_snoc, IH, delete_insert_ne.
  - apply dec_stable in Heq as ->. by rewrite app_nil_r, delete_insert_eq.
Qed.

Lemma refresh_guild_invites_other g fetch cache g' :
  g' ≠ g → refresh_guild_invites g fetch cache !! g' = cache !! g'.
Proof. intros Hne. destruct fetch; simpl; by rewrite ?lookup_insert_ne. Qed.

(** X2: an [on_invite_create] notification after a successful refresh
    leaves the cache a refresh of the same list with the new invite added
    at its end would have left. *)
Theorem on_invite_create_agrees_with_refresh g invs inv cache :
  on_invite_create g inv (refresh_guild_invites g (FetchOk invs) cache) =
    refresh_guild_invites g (FetchOk (invs ++ [inv])) cache.
Proof.
  unfold on_invite_create. simpl.
  by rewrite lookup_insert_eq, insert_insert_eq, snapshot_of_snoc.
Qed.

(** X3: an [on_invite_delete] notification after a successful refresh
    leaves the cache a refresh of the same list without the invites of the
    deleted code would have left. *)
Theorem on_invite_delete_agrees_with_refresh g invs inv cache :
  on_invite_delete g inv (refresh_guild_invites g (FetchOk invs) cache) =
    refresh_guild_invites g
      (FetchOk (filter (λ i, inv_code i ≠ inv_code inv) invs)) cache.
Proof.
  unfold on_invite_delete. simpl.
  by rewrite lookup_insert_eq, insert_insert_eq, snapshot_of_filter_ne.
Qed.

(** X4: creating and then deleting an invite whose code the guild's cached
    mapping did not hold restores the cache. *)
Theorem on_invite_create_delete g inv cache m :
  cache !! g = Some m → m !! inv_code inv = None →
  on_invite_delete g inv (on_invite_create g inv cache) = cache.
Proof.
  intros Hg Hc. unfold on_invite_delete, on_invite_create.
  rewrite lookup_insert_eq, Hg. simpl.
  rewrite insert_insert_eq, delete_insert_eq, delete_id by done.
  by apply insert_id.
Qed.

Lemma on_invite_create_delete_witness :
  on_invite_delete 1 (sample_invite "C" 0)
    (on_invite_create 1 (sample_invite "C" 0) (invites_cache sample_state))
  = invites_cache sample_state.
Proof.
  apply (on_invite_create_delete 1 (sample_invite "C" 0)
           (invites_cache sample_state) (<["A" := 5]> (<["B" := 2]> ∅)));
    reflexivity.
Defined.

Lemma on_ready_snoc guilds g fetch cache :
  on_ready (guilds ++ [(g, fetch)]) cache =
    refresh_guild_invites g fetch (on_ready guilds cache).
Proof. unfold on_ready. by rewrite foldl_snoc. Qed.

Lemma on_ready_other guilds cache g :
  g ∉ guilds.*1 → on_ready guilds cache !! g = cache !! g.
Proof.
  induction guilds as [|[g0 f0] guilds IH] using rev_ind; [done|].
  rewrite fmap_app, not_elem_of_app, on_ready_snoc. intros [Hg Hg0].
  rewrite refresh_guild_invites_other; [by apply IH|].
  intros ->. apply Hg0. by left.
Qed.

(** X5: after [on_ready] over guilds with distinct ids, each listed guild
    has the entry its own refresh gives from the starting cache (the fresh
    snapshot, the empty mapping on a permission failure, the old entry on
    another error), and every other guild keeps its entry. *)
Theorem on_ready_each_guild guilds cache :
  NoDup guilds.*1 →
  (∀ g fetch, (g, fetch) ∈ guilds →
     on_ready guilds cache !! g = refresh_guild_invites g fetch cache !! g) ∧
  (∀ g, g ∉ guilds.*1 → on_ready guilds cache !! g = cache !! g).
Proof.
  intros Hnd. split; [|intros g; apply on_ready_other].
  induction guilds as [|[g0 f0] guilds IH] using rev_ind;
    [by intros ?? ?%elem_of_nil|].
  rewrite fmap_app in Hnd. apply NoDup_app in Hnd as (Hnd & Hdisj & _).
  intros g fetch Hin. rewrite on_ready_snoc.
  apply elem_of_app in Hin as [Hin|Hin%list_elem_of_singleton].
  - assert (g ≠ g0) as Hne.
    { intros ->. apply (Hdisj g0); [|by left].
      apply list_elem_of_fmap. by exists (g0, fetch). }
    rewrite refresh_guild_invites_other by done. by apply IH.
  - injection Hin as -> ->.
    assert (on_ready guilds cache !! g0 = cache !! g0) as Hsame.
    { apply on_ready_other. intros Hin. apply (Hdisj g0 Hin). by left. }
    destruct f0; simpl; by rewrite ?lookup_insert_eq.
Qed.

Lemma on_ready_each_guild_witness :
  (∀ g fetch,
     (g, fetch) ∈ [(1, FetchForbidden); (2, FetchOk [sample_invite "Z" 7])] →
     on_ready [(1, FetchForbidden); (2, FetchOk [sample_invite "Z" 7])]
       (invites_cache sample_state) !! g =
     refresh_guild_invites g fetch (invites_cache sample_state) !! g) ∧
  (∀ g, g ∉ [(1, FetchForbidden); (2, FetchOk [sample_invite "Z" 7])].*1 →
     on_ready [(1, FetchForbidden); (2, FetchOk [sample_invite "Z" 7])]
       (invites_cache sample_state) !! g = invites_cache sample_state !! g).
Proof.
  apply (on_ready_each_guild
           [(1, FetchForbidden); (2, FetchOk [sample_invite "Z" 7])]
           (invites_cache sample_state)).
  apply NoDup_cons. split; [|apply NoDup_singleton].
  intros H%list_elem_of_singleton. discriminate.
Defined.

(** * Referral ledger: how calls move totals, rows and events *)

Lemma sum_owned_uses_ext g u db db' :
  user_invites db = user_invites db' →
  sum_owned_uses g u db = sum_owned_uses g u db'.
Proof. unfold sum_owned_uses. by intros ->. Qed.

Lemma sum_owned_uses_update g u code r db db' :
  user_invites db' = <[code := r]> (user_invites db) →
  sum_owned_uses g u db' =
    sum_owned_uses g u db
    - match user_invites db !! code with
      | Some old => owned_uses g u old
      | None => 0
      end
    + owned_uses g u r.
Proof.
  intros Hdb'. unfold owned_uses.
  assert (Hnew : sum_owned_uses g u db' =
            (if decide (owned_by g u r) then row_uses r else 0) +
            sum_owned_uses g u
              {| user_invites := delete code (user_invites db); join_events := [] |}).
  { rewrite <- (sum_owned_uses_insert g u code r (delete code (user_invites db)) [])
      by apply lookup_delete_eq.
    apply sum_owned_uses_ext. simpl. by rewrite insert_delete_eq. }
  rewrite Hnew. destruct (user_invites db !! code) as [old|] eqn:E.
  - assert (Hold : sum_owned_uses g u db =
              (if decide (owned_by g u old) then row_uses old else 0) +
              sum_owned_uses g u
                {| user_invites := delete code (user_invites db); join_events := [] |}).
    { rewrite <- (sum_owned_uses_insert g u code old (delete code (user_invites db)) [])
        by apply lookup_delete_eq.
      apply sum_owned_uses_ext. simpl. by rewrite insert_delete_id. }
    rewrite Hold. lia.
  - rewrite (sum_owned_uses_ext g u
               {| user_invites := delete code (user_invites db); join_events := [] |} db)
      by (simpl; by apply delete_id).
    lia.
Qed.

Lemma total_after_increment g code j now db g' u' :
  get_member_total_referrals g' u' (increment_code_use g code j now db) =
    get_member_total_referrals g' u' db +
    (if decide (g' = g ∧ sql_select_owner g code db = Some u') then 1 else 0).
Proof.
  rewrite !total_referrals_sum, increment_code_use_unfold.
  rewrite (sum_owned_uses_ext g' u' _ (sql_increment_uses g code db)) by done.
  unfold sql_select_owner, sql_increment_uses.
  destruct (user_invites db !! code) as [r|] eqn:E.
  - destruct (decide (row_guild_id r = g)) as [Hg|Hg].
    + rewrite (sum_owned_uses_update g' u' code
                 {| row_guild_id := row_guild_id r; row_user_id := row_user_id r;
                    row_uses := row_uses r + 1 |} db) by done.
      rewrite E. unfold owned_uses, owned_by. simpl.
      destruct (decide (row_guild_id r = g' ∧ row_user_id r = u')) as [[? ?]|Hn].
      * rewrite decide_True by (split; congruence). lia.
      * rewrite decide_False; [lia|]. intros [-> [= ?]]. by apply Hn.
    + rewrite decide_False by (by intros [_ ?]). lia.
  - rewrite decide_False by (by intros [_ ?]). lia.
Qed.

(** X6: [increment_code_use] raises by exactly one the total of the user
    who owns the code in the guild of the call, when there is one, and
    leaves the total of every other user and guild as it was. *)
Theorem increment_code_use_totals g code j now db g' u' :
  get_member_total_referrals g' u' (increment_code_use g code j now db) =
    get_member_total_referrals g' u' db +
    (if decide (g' = g ∧ sql_select_owner g code db = Some u') then 1 else 0).
Proof. apply total_after_increment. Qed.

(** X7: [add_or_upsert_invite_owner] takes the code's stored use count
    away from the total of its previous owner and adds it to the total of
    the new owner in the new guild; registering a code that was not stored
    changes no total. *)
Theorem add_or_upsert_invite_owner_totals g u code db g' u' :
  get_member_total_referrals g' u' (add_or_upsert_invite_owner g u code db) =
    get_member_total_referrals g' u' db
    - match user_invites db !! code with
      | Some old => owned_uses g' u' old
      | None => 0
      end
    + (if decide (g' = g ∧ u' = u)
       then default 0 (row_uses <$> user_invites db !! code) else 0).
Proof.
  rewrite !total_referrals_sum.
  rewrite (sum_owned_uses_update g' u' code
    {| row_guild_id := g; row_user_id := u;
       row_uses := default 0 (row_uses <$> user_invites db !! code) |} db).
  - f_equal. unfold owned_uses, owned_by. simpl.
    destruct (decide (g = g' ∧ u = u')) as [[-> ->]|Hn].
    + by rewrite decide_True.
    + rewrite decide_False; [done|]. intros [-> ->]. by apply Hn.
  - rewrite add_or_upsert_invite_owner_unfold. unfold sql_upsert_invite_owner.
    simpl. by destruct (user_invites db !! code).
Qed.

(** X8: whatever registrations come in between, the join events after a
    sequence of ledger calls are the events before it followed by one event
    per [recordUse] call, in call order; no event is ever changed or
    removed. *)
Theorem join_events_append_only calls db :
  join_events (ledger_run calls db) = join_events db ++ omap event_of_call calls.
Proof.
  revert db. induction calls as [|c calls IH]; intros db.
  - simpl. by rewrite app_nil_r.
  - change (ledger_run (c :: calls) db) with (ledger_run calls (ledger_step db c)).
    rewrite IH. destruct c as [g u code|g code j now]; cbn [ledger_step].
    + by rewrite upsert_join_events.
    + rewrite increment_join_events, <- app_assoc. done.
Qed.

Lemma ledger_step_row_kept db c code r :
  user_invites db !! code = Some r →
  ∃ r', user_invites (ledger_step db c) !! code = Some r' ∧
        row_uses r ≤ row_uses r'.
Proof.
  intros Hr. destruct c as [g u code'|g code' j now]; cbn [ledger_step].
  - destruct (decide (code = code')) as [<-|Hne].
    + rewrite (upsert_lookup_present _ _ _ _ _ Hr). eexists. split; [done|]. simpl. lia.
    + rewrite upsert_lookup_other by done. exists r. split; [done|lia].
  - destruct (decide (code = code')) as [<-|Hne].
    + destruct (sql_select_owner g code db) as [u|] eqn:E.
      * destruct (increment_lookup_hit g code j now db u E) as (old & Ho & ->).
        rewrite Hr in Ho. injection Ho as <-.
        eexists. split; [done|]. simpl. lia.
      * rewrite (increment_lookup_miss _ _ _ _ _ E). exists r. split; [done|lia].
    + rewrite increment_lookup_other by done. exists r. split; [done|lia].
Qed.

(** X9: no sequence of ledger calls deletes an invite row or lowers its
    use count. *)
Theorem ledger_rows_kept calls db code r :
  user_invites db !! code = Some r →
  ∃ r', user_invites (ledger_run calls db) !! code = Some r' ∧
        row_uses r ≤ row_uses r'.
Proof.
  revert db r. induction calls as [|c calls IH]; intros db r Hr.
  - exists r. split; [done|lia].
  - destruct (ledger_step_row_kept db c code r Hr) as (r1 & Hr1 & Hle).
    destruct (IH _ _ Hr1) as (r' & Hr' & Hle').
    exists r'. split; [exact Hr'|lia].
Qed.

Lemma ledger_rows_kept_witness :
  ∃ r', user_invites
          (ledger_run [RecordUse 1 "A" 42 1000; RegisterOwnership 2 7 "A"] sample_db)
          !! "A" = Some r' ∧
        row_uses (sample_row 1 9 4) ≤ row_uses r'.
Proof.
  apply (ledger_rows_kept [RecordUse 1 "A" 42 1000; RegisterOwnership 2 7 "A"]
           sample_db "A" (sample_row 1 9 4)).
  reflexivity.
Defined.

(** * The join handler: cache, credit and rewards *)

Lemma with_cache_same st : with_cache (invites_cache st) st = st.
Proof. by destruct st. Qed.

Lemma on_member_join_truthy_cases (gd : guild) (after : list invite) (st : state) :
  truthy_str (resolveJoin (before_snapshot gd st) after) = None ∨
  ∃ code, truthy_str (resolveJoin (before_snapshot gd st) after) = Some code.
Proof. destruct (truthy_str _) as [code|]; [right; by exists code|by left]. Qed.

Lemma on_member_join_cache gd member after now st :
  invites_cache (on_member_join gd member (FetchOk after) now st).1 =
    <[guild_id gd := snapshot_of after]> (invites_cache st) ∧
  before_snapshot gd (on_member_join gd member (FetchOk after) now st).1 =
    snapshot_of after ∧
  REFERRAL_REWARDS (on_member_join gd member (FetchOk after) now st).1 =
    REFERRAL_REWARDS st.
Proof.
  assert (H : invites_cache (on_member_join gd member (FetchOk after) now st).1 =
                <[guild_id gd := snapshot_of after]> (invites_cache st) ∧
              REFERRAL_REWARDS (on_member_join gd member (FetchOk after) now st).1 =
                REFERRAL_REWARDS st).
  { destruct (on_member_join_truthy_cases gd after st) as [Hn|[code Hs]].
    - by rewrite (on_member_join_not_determined _ _ _ _ _ Hn).
    - by rewrite (on_member_join_determined _ _ _ _ _ _ Hs). }
  destruct H as [Hc Hr]. split; [done|]. split; [|done].
  unfold before_snapshot. by rewrite Hc, lookup_insert_eq.
Qed.

(** X10: when the fetch of a join succeeds, the guild's cached mapping
    becomes the snapshot of the fetched list whatever the outcome of the
    join (not determined, attributed, or an error while evaluating the
    reward); the other guilds' mappings and the reward configuration are
    untouched. *)
Theorem on_member_join_replaces_cache gd member after now st :
  invites_cache (on_member_join gd member (FetchOk after) now st).1 =
    <[guild_id gd := snapshot_of after]> (invites_cache st) ∧
  before_snapshot gd (on_member_join gd member (FetchOk after) now st).1 =
    snapshot_of after ∧
  REFERRAL_REWARDS (on_member_join gd member (FetchOk after) now st).1 =
    REFERRAL_REWARDS st.
Proof. apply on_member_join_cache. Qed.

Lemma resolveJoin_replay after :
  NoDup (inv_code <$> after) → resolveJoin (snapshot_of after) after = None.
Proof.
  intros Hnd. apply resolveJoin_None, Forall_forall. intros inv Hin.
  unfold increased. rewrite (snapshot_of_lookup_NoDup _ _ Hnd Hin). simpl. lia.
Qed.

(** X11: when a listing with distinct codes has been handled by one join,
    handling a second join against the same listing determines no code and
    changes nothing: the same increase is never attributed twice. *)
Theorem on_member_join_replay gd member1 now1 member2 now2 after st :
  NoDup (inv_code <$> after) →
  on_member_join gd member2 (FetchOk after) now2
    (on_member_join gd member1 (FetchOk after) now1 st).1 =
  ((on_member_join gd member1 (FetchOk after) now1 st).1, NotDetermined).
Proof.
  intros Hnd.
  destruct (on_member_join_cache gd member1 after now1 st) as (Hc & Hb & _).
  rewrite on_member_join_not_determined
    by (by rewrite Hb, resolveJoin_replay).
  f_equal. rewrite Hc, insert_insert_eq, <- Hc. apply with_cache_same.
Qed.

Lemma on_member_join_replay_witness :
  on_member_join sample_guild 43
    (FetchOk [sample_invite "A" 5; sample_invite "B" 3]) 1001
    (on_member_join sample_guild 42
       (FetchOk [sample_invite "A" 5; sample_invite "B" 3]) 1000
       sample_registered_state).1 =
  ((on_member_join sample_guild 42
      (FetchOk [sample_invite "A" 5; sample_invite "B" 3]) 1000
      sample_registered_state).1, NotDetermined).
Proof.
  apply (on_member_join_replay sample_guild 42 1000 43 1001
           [sample_invite "A" 5; sample_invite "B" 3] sample_registered_state).
  apply NoDup_cons. split; [|apply NoDup_singleton].
  intros H%list_elem_of_singleton. discriminate.
Defined.

Lemma join_credit gd member after now st code r :
  resolveJoin (before_snapshot gd st) after = Some code →
  code ≠ "" →
  user_invites (store st) !! code = Some r →
  row_guild_id r = guild_id gd →
  user_invites (store (on_member_join gd member (FetchOk after) now st).1) !! code =
    Some {| row_guild_id := row_guild_id r; row_user_id := row_user_id r;
            row_uses := row_uses r + 1 |} ∧
  (∀ c, c ≠ code →
     user_invites (store (on_member_join gd member (FetchOk after) now st).1) !! c =
       user_invites (store st) !! c) ∧
  join_events (store (on_member_join gd member (FetchOk after) now st).1) =
    join_events (store st) ++
      [{| ev_guild_id := guild_id gd; ev_joined_user_id := member;
          ev_inviter_code := code; ev_ts := now |}] ∧
  get_member_total_referrals (guild_id gd) (row_user_id r)
    (store (on_member_join gd member (FetchOk after) now st).1) =
    get_member_total_referrals (guild_id gd) (row_user_id r) (store st) + 1.
Proof.
  intros Hres Hne Hrow Hg.
  assert (Hsel : sql_select_owner (guild_id gd) code (store st) = Some (row_user_id r)).
  { unfold sql_select_owner. rewrite Hrow. by rewrite decide_True. }
  rewrite (on_member_join_determined gd member after now st code)
    by (rewrite Hres; simpl; by rewrite decide_False).
  cbn [store].
  destruct (increment_lookup_hit _ _ member now _ _ Hsel) as (r0 & Hr0 & Hnew).
  rewrite Hrow in Hr0. injection Hr0 as <-.
  split; [exact Hnew|].
  split; [intros c Hc; by apply increment_lookup_other|].
  split; [apply increment_join_events|].
  rewrite total_after_increment. by rewrite decide_True.
Qed.

(** X12: a join resolved to a non-empty code that is registered in the
    guild of the join raises that row's use count by one, stores the join
    event, leaves every other row as it was and raises the owner's total by
    exactly one. *)
Theorem registered_code_join_credited gd member after now st code r :
  resolveJoin (before_snapshot gd st) after = Some code →
  code ≠ "" →
  user_invites (store st) !! code = Some r →
  row_guild_id r = guild_id gd →
  user_invites (store (on_member_join gd member (FetchOk after) now st).1) !! code =
    Some {| row_guild_id := row_guild_id r; row_user_id := row_user_id r;
            row_uses := row_uses r + 1 |} ∧
  (∀ c, c ≠ code →
     user_invites (store (on_member_join gd member (FetchOk after) now st).1) !! c =
       user_invites (store st) !! c) ∧
  join_events (store (on_member_join gd member (FetchOk after) now st).1) =
    join_events (store st) ++
      [{| ev_guild_id := guild_id gd; ev_joined_user_id := member;
          ev_inviter_code := code; ev_ts := now |}] ∧
  get_member_total_referrals (guild_id gd) (row_user_id r)
    (store (on_member_join gd member (FetchOk after) now st).1) =
    get_member_total_referrals (guild_id gd) (row_user_id r) (store st) + 1.
Proof. apply join_credit. Qed.

Lemma registered_code_join_credited_witness :
  user_invites (store (on_member_join sample_guild 42
      (FetchOk [sample_invite "A" 5; sample_invite "B" 3]) 1000
      sample_registered_state).1) !! "B" =
    Some {| row_guild_id := row_guild_id (sample_row 1 9 0);
            row_user_id := row_user_id (sample_row 1 9 0);
            row_uses := row_uses (sample_row 1 9 0) + 1 |} ∧
  (∀ c, c ≠ "B" →
     user_invites (store (on_member_join sample_guild 42
         (FetchOk [sample_invite "A" 5; sample_invite "B" 3]) 1000
         sample_registered_state).1) !! c =
       user_invites (store sample_registered_state) !! c) ∧
  join_events (store (on_member_join sample_guild 42
      (FetchOk [sample_invite "A" 5; sample_invite "B" 3]) 1000
      sample_registered_state).1) =
    join_events (store sample_registered_state) ++
      [{| ev_guild_id := guild_id sample_guild; ev_joined_user_id := 42;
          ev_inviter_code := "B"; ev_ts := 1000 |}] ∧
  get_member_total_referrals (guild_id sample_guild) (row_user_id (sample_row 1 9 0))
    (store (on_member_join sample_guild 42
      (FetchOk [sample_invite "A" 5; sample_invite "B" 3]) 1000
      sample_registered_state).1) =
    get_member_total_referrals (guild_id sample_guild)
      (row_user_id (sample_row 1 9 0)) (store sample_registered_state) + 1.
Proof.
  apply (registered_code_join_credited sample_guild 42
           [sample_invite "A" 5; sample_invite "B" 3] 1000
           sample_registered_state "B" (sample_row 1 9 0));
    [reflexivity|discriminate|reflexivity|reflexivity].
Defined.

Lemma role_grant_Some gd inviter new_role_id m role :
  role_grant gd inviter new_role_id = Some (m, role) →
  m = inviter ∧ new_role_id = Some role ∧ role ≠ 0 ∧ role ∈ guild_roles gd ∧
  ∃ held, guild_members gd !! inviter = Some held ∧ role ∉ held.
Proof.
  unfold role_grant, truthy_int. destruct new_role_id as [rid|]; [|done].
  destruct (decide (rid = 0)); [done|].
  destruct (decide (rid ∈ guild_roles gd)); [|done].
  destruct (guild_members gd !! inviter) as [held|]; [|done].
  destruct (decide (rid ∈ held)); [done|].
  intros [= <- <-]. repeat split; try done. by exists held.
Qed.

(** X13: every [add_roles] call the join handler issues goes to the owner
    of the used code in the guild of the join, for a role that exists in
    the guild, that this member does not hold yet, and that
    [next_award_roles_for] returned first for the owner's total after the
    join was recorded. *)
Theorem on_member_join_grant_sound gd member after now st code inviter role :
  (on_member_join gd member (FetchOk after) now st).2 =
    Attributed code (Some (inviter, role)) →
  sql_select_owner (guild_id gd) code
    (store (on_member_join gd member (FetchOk after) now st).1) = Some inviter ∧
  inviter ≠ 0 ∧ role ≠ 0 ∧ role ∈ guild_roles gd ∧
  (∃ held, guild_members gd !! inviter = Some held ∧ role ∉ held) ∧
  ∃ roles,
    next_award_roles_for (REFERRAL_REWARDS st) (guild_id gd)
      (get_member_total_referrals (guild_id gd) inviter
         (store (on_member_join gd member (FetchOk after) now st).1)) =
    Ok (Some role, roles).
Proof.
  unfold on_member_join. fold (before_snapshot gd st).
  destruct (truthy_str (resolveJoin (before_snapshot gd st) after)) as [c|]; [|done].
  destruct (sql_select_owner (guild_id gd) c
              (increment_code_use (guild_id gd) c member now (store st)))
    as [owner|] eqn:Hsel; [|done].
  unfold truthy_int. destruct (decide (owner = 0)) as [|Hnz]; [done|].
  destruct (next_award_roles_for _ _ _) as [[new_role_id roles]|e] eqn:Haward; [|done].
  cbn [fst snd store]. intros [= -> Hgrant].
  apply role_grant_Some in Hgrant as (-> & -> & Hr0 & Hrole & Hheld).
  rewrite Hsel. repeat split; try done. by exists roles.
Qed.

Lemma on_member_join_grant_sound_witness :
  sql_select_owner (guild_id sample_guild) "B"
    (store (on_member_join sample_guild 42
       (FetchOk [sample_invite "A" 5; sample_invite "B" 3]) 1000
       sample_registered_state).1) = Some 9 ∧
  9 ≠ 0 ∧ 100 ≠ 0 ∧ 100 ∈ guild_roles sample_guild ∧
  (∃ held, guild_members sample_guild !! 9 = Some held ∧ 100 ∉ held) ∧
  ∃ roles,
    next_award_roles_for (REFERRAL_REWARDS sample_registered_state)
      (guild_id sample_guild)
      (get_member_total_referrals (guild_id sample_guild) 9
         (store (on_member_join sample_guild 42
            (FetchOk [sample_invite "A" 5; sample_invite "B" 3]) 1000
            sample_registered_state).1)) =
    Ok (Some 100, roles).
Proof.
  apply (on_member_join_grant_sound sample_guild 42
           [sample_invite "A" 5; sample_invite "B" 3] 1000
           sample_registered_state "B" 9 100).
  vm_compute. reflexivity.
Defined.

(** X14: when evaluating the reward raises, the handler fails after the
    join was recorded: the use count increment and the join event of the
    used code are stored all the same. *)
Theorem on_member_join_reward_error_keeps_join gd member after now st code e :
  (on_member_join gd member (FetchOk after) now st).2 = HandlerRaised code e →
  store (on_member_join gd member (FetchOk after) now st).1 =
    increment_code_use (guild_id gd) code member now (store st) ∧
  join_events (store (on_member_join gd member (FetchOk after) now st).1) =
    join_events (store st) ++
      [{| ev_guild_id := guild_id gd; ev_joined_user_id := member;
          ev_inviter_code := code; ev_ts := now |}] ∧
  ∃ inviter,
    sql_select_owner (guild_id gd) code
      (increment_code_use (guild_id gd) code member now (store st)) = Some inviter ∧
    next_award_roles_for (REFERRAL_REWARDS st) (guild_id gd)
      (get_member_total_referrals (guild_id gd) inviter
         (increment_code_use (guild_id gd) code member now (store st))) = Raise e.
Proof.
  unfold on_member_join. fold (before_snapshot gd st).
  destruct (truthy_str (resolveJoin (before_snapshot gd st) after)) as [c|]; [|done].
  destruct (sql_select_owner (guild_id gd) c
              (increment_code_use (guild_id gd) c member now (store st)))
    as [owner|] eqn:Hsel; [|done].
  unfold truthy_int. destruct (decide (owner = 0)) as [|Hnz]; [done|].
  destruct (next_award_roles_for _ _ _) as [[new_role_id roles]|e'] eqn:Haward; [done|].
  cbn [fst snd store]. intros [= -> ->].
  split; [done|]. split; [apply increment_join_events|].
  exists owner. by rewrite Hsel.
Qed.

Lemma on_member_join_reward_error_keeps_join_witness :
  store (on_member_join sample_guild 42
     (FetchOk [sample_invite "A" 5; sample_invite "B" 3]) 1000
     sample_bad_key_state).1 =
    increment_code_use (guild_id sample_guild) "B" 42 1000 (store sample_bad_key_state) ∧
  join_events (store (on_member_join sample_guild 42
     (FetchOk [sample_invite "A" 5; sample_invite "B" 3]) 1000
     sample_bad_key_state).1) =
    join_events (store sample_bad_key_state) ++
      [{| ev_guild_id := guild_id sample_guild; ev_joined_user_id := 42;
          ev_inviter_code := "B"; ev_ts := 1000 |}] ∧
  ∃ inviter,
    sql_select_owner (guild_id sample_guild) "B"
      (increment_code_use (guild_id sample_guild) "B" 42 1000
         (store sample_bad_key_state)) = Some inviter ∧
    next_award_roles_for (REFERRAL_REWARDS sample_bad_key_state)
      (guild_id sample_guild)
      (get_member_total_referrals (guild_id sample_guild) inviter
         (increment_code_use (guild_id sample_guild) "B" 42 1000
            (store sample_bad_key_state))) = Raise ValueError.
Proof.
  apply (on_member_join_reward_error_keeps_join sample_guild 42
           [sample_invite "A" 5; sample_invite "B" 3] 1000
           sample_bad_key_state "B" ValueError).
  vm_compute. reflexivity.
Defined.

(** * Reward policy: the eligible roles, growth and bad keys *)

Lemma mapM_result_fmap {A B} (f : A → result B) (h : A → B) (l : list A) :
  (∀ x, x ∈ l → f x = Ok (h x)) → mapM f l = Ok (h <$> l).
Proof.
  induction l as [|x l IH]; intros Hf; [done|].
  cbn. rewrite (Hf x) by left. rewrite bind_Ok, IH; [done|].
  intros y Hy. apply Hf. by right.
Qed.

Lemma StronglySorted_filter_keeps {A} (R : relation A) (P : A → Prop)
    `{!∀ x, Decision (P x)} (l : list A) :
  StronglySorted R l → StronglySorted R (filter P l).
Proof.
  induction 1 as [|x l Hl IH Hx]; [constructor|].
  rewrite filter_cons. destruct (decide (P x)); [|done].
  constructor; [done|].
  apply Forall_forall. intros y [_ Hy]%list_elem_of_filter.
  by eapply Forall_forall in Hx.
Qed.

Lemma StronglySorted_le_lt (l : list Z) :
  StronglySorted Z.le l → NoDup l → StronglySorted Z.lt l.
Proof.
  induction 1 as [|x l Hl IH Hx]; intros Hnd; [constructor|].
  apply NoDup_cons in Hnd as [Hnotin Hnd].
  constructor; [by apply IH|].
  apply Forall_forall. intros y Hy.
  assert (x ≤ y) by (by eapply Forall_forall in Hx).
  assert (x ≠ y) by (by intros ->). lia.
Qed.

Lemma StronglySorted_le_last (l : list Z) x :
  StronglySorted Z.le l → last l = Some x → ∀ y, y ∈ l → y ≤ x.
Proof.
  induction 1 as [|z l Hl IH Hz]; [done|].
  intros Hlast y Hy. destruct l as [|z' l'].
  - injection Hlast as <-. apply list_elem_of_singleton in Hy. lia.
  - rewrite last_cons_cons in Hlast.
    apply elem_of_cons in Hy as [->|Hy]; [|by apply IH].
    assert (z ≤ z') by (eapply Forall_forall in Hz; [done|by left]).
    assert (z' ≤ x) by (apply IH; [done|by left]). lia.
Qed.

Lemma foldl_max_sorted t0 rest :
  StronglySorted Z.le (t0 :: rest) →
  last (t0 :: rest) = Some (foldl Z.max t0 rest).
Proof.
  intros Hs. destruct (last (t0 :: rest)) as [x|] eqn:Hlast.
  - destruct (foldl_max_spec t0 rest) as [Hin Hmax]. f_equal.
    assert (foldl Z.max t0 rest ≤ x) by (by eapply StronglySorted_le_last).
    assert (x ≤ foldl Z.max t0 rest); [|lia].
    apply Hmax. by apply last_Some_elem_of.
  - by apply last_None in Hlast.
Qed.

Lemma filter_le_prefix (l : list Z) a b :
  StronglySorted Z.le l → a ≤ b →
  filter (λ t, t ≤ a) l `prefix_of` filter (λ t, t ≤ b) l.
Proof.
  intros Hs Hab. induction Hs as [|x l Hl IH Hx]; [done|].
  rewrite !filter_cons.
  destruct (decide (x ≤ a)) as [Ha|Ha].
  - rewrite decide_True by lia. by apply prefix_cons.
  - replace (filter (λ t, t ≤ a) l) with (@nil Z); [apply prefix_nil|].
    symmetry. apply filter_none. apply Forall_forall. intros y Hy.
    assert (x ≤ y) by (by eapply Forall_forall in Hx). lia.
Qed.

(** What [next_award_roles_for] returns on an encoded policy, in closed
    form: the roles of the thresholds up to the total, in ascending order,
    and the last of them. *)
Lemma award_from_thresholds_encoded (policy : gmap Z Z) total ts :
  (∀ t, t ∈ ts → is_Some (policy !! t)) →
  award_from_thresholds (encode_policy policy) total ts =
    Ok (last ((λ t, default 0 (policy !! t)) <$>
                filter (λ t, t ≤ total) (merge_sort Z.le ts)),
        (λ t, default 0 (policy !! t)) <$>
          filter (λ t, t ≤ total) (merge_sort Z.le ts)).
Proof.
  intros Hmem. unfold award_from_thresholds.
  assert (Hel : ∀ t, t ∈ filter (λ t, t ≤ total) (merge_sort Z.le ts) →
                     getitem (encode_policy policy) (py_str t) =
                       Ok (default 0 (policy !! t))).
  { intros t [_ Ht]%list_elem_of_filter.
    rewrite merge_sort_Permutation in Ht. apply Hmem in Ht as [role Hrole].
    by rewrite getitem_encode_policy, Hrole. }
  assert (Hs : StronglySorted Z.le (filter (λ t, t ≤ total) (merge_sort Z.le ts))).
  { apply StronglySorted_filter_keeps, StronglySorted_merge_sort; apply _. }
  destruct (filter (λ t, t ≤ total) (merge_sort Z.le ts)) as [|t0 rest]; [done|].
  rewrite (mapM_result_fmap _ _ _ Hel), fmap_last, (foldl_max_sorted _ _ Hs).
  rewrite Hel, !bind_Ok; [done|].
  destruct (foldl_max_spec t0 rest) as [Hin _]. exact Hin.
Qed.

Lemma canonical_keys_parse (keys : list string) (ts : list Z) :
  Forall (λ k, ∃ i, k = py_str i) keys →
  Forall2 (λ k t, py_int k = Ok t) keys ts →
  keys = py_str <$> ts.
Proof.
  intros Hcanon HF. induction HF as [|k t keys ts Hk _ IH]; [done|].
  apply Forall_cons in Hcanon as [[i ->] Hcanon].
  rewrite py_int_py_str in Hk. injection Hk as ->.
  rewrite fmap_cons. f_equal. by apply IH.
Qed.

Lemma encoded_thresholds_NoDup (policy : gmap Z Z) :
  ∃ ts, mapM py_int (map_to_list (encode_policy policy)).*1 = Ok ts ∧
        (∀ t, t ∈ ts ↔ is_Some (policy !! t)) ∧ NoDup ts.
Proof.
  destruct (encoded_thresholds policy) as (ts & Hts & Hmem).
  exists ts. split; [done|]. split; [done|].
  destruct (mapM_result_cases py_int (map_to_list (encode_policy policy)).*1)
    as [(ts' & Hts' & HF)|(e & He & _)]; [|by rewrite He in Hts].
  rewrite Hts in Hts'. injection Hts' as <-.
  assert (Hcanon : Forall (λ k, ∃ i, k = py_str i)
                     (map_to_list (encode_policy policy)).*1).
  { apply Forall_forall. intros k Hk.
    apply list_elem_of_fmap in Hk as ([k' v] & -> & Hk).
    apply elem_of_map_to_list, lookup_kmap_Some in Hk as (i & -> & _); [|apply _].
    by exists i. }
  apply (NoDup_fmap_1 py_str).
  rewrite <- (canonical_keys_parse _ _ Hcanon HF). apply NoDup_fst_map_to_list.
Qed.

(** X15: on a guild whose mapping is the JSON form of an integer policy,
    [next_award_roles_for] never raises; its second result lists the role
    of every threshold that is at most the total, once each and in strictly
    ascending order of threshold, and its first result is the last role of
    that list (none when the list is empty). *)
Theorem next_award_roles_for_eligible_roles rewards g total (policy : gmap Z Z) :
  guild_mapping rewards g = encode_policy policy →
  ∃ ts roles,
    next_award_roles_for rewards g total = Ok (last roles, roles) ∧
    StronglySorted Z.lt ts ∧
    (∀ t, t ∈ ts ↔ is_Some (policy !! t) ∧ t ≤ total) ∧
    Forall2 (λ t role, policy !! t = Some role) ts roles.
Proof.
  intros Henc. rewrite next_award_roles_for_unfold, Henc.
  destruct (decide (encode_policy policy = ∅)) as [Hempty|_].
  - apply kmap_empty_iff in Hempty as ->; [|apply _].
    exists [], []. split; [done|]. split; [constructor|]. split; [|constructor].
    intros t. rewrite lookup_empty. split; [by intros ?%elem_of_nil|].
    by intros [[? ?] _].
  - destruct (encoded_thresholds_NoDup policy) as (ts0 & -> & Hmem & Hnd).
    rewrite bind_Ok, award_from_thresholds_encoded by (intros t; apply Hmem).
    exists (filter (λ t, t ≤ total) (merge_sort Z.le ts0)).
    eexists. split; [done|].
    assert (Hel : ∀ t, t ∈ filter (λ t, t ≤ total) (merge_sort Z.le ts0) ↔
                       is_Some (policy !! t) ∧ t ≤ total).
    { intros t. rewrite list_elem_of_filter, merge_sort_Permutation, Hmem. tauto. }
    split; [|split; [exact Hel|]].
    + apply StronglySorted_le_lt.
      * apply StronglySorted_filter_keeps, StronglySorted_merge_sort; apply _.
      * apply NoDup_filter. by rewrite merge_sort_Permutation.
    + apply Forall2_fmap_r, Forall_Forall2_diag, Forall_forall.
      intros t [[role Hrole] _]%Hel. simpl. by rewrite Hrole.
Qed.

Lemma next_award_roles_for_eligible_roles_witness :
  ∃ ts roles,
    next_award_roles_for sample_rewards 1 10 = Ok (last roles, roles) ∧
    StronglySorted Z.lt ts ∧
    (∀ t, t ∈ ts ↔ is_Some (sample_policy !! t) ∧ t ≤ 10) ∧
    Forall2 (λ t role, sample_policy !! t = Some role) ts roles.
Proof.
  apply (next_award_roles_for_eligible_roles sample_rewards 1 10 sample_policy).
  vm_compute. reflexivity.
Defined.

(** X16: on such a guild, the list of eligible roles at a total is a
    prefix of the list at any greater total: tiers are only ever added as
    referrals grow. *)
Theorem next_award_roles_for_roles_grow rewards g total total' (policy : gmap Z Z) :
  guild_mapping rewards g = encode_policy policy →
  total ≤ total' →
  ∃ best roles best' roles',
    next_award_roles_for rewards g total = Ok (best, roles) ∧
    next_award_roles_for rewards g total' = Ok (best', roles') ∧
    roles `prefix_of` roles'.
Proof.
  intros Henc Hle. rewrite !next_award_roles_for_unfold, Henc.
  destruct (decide (encode_policy policy = ∅)) as [Hempty|_].
  - by exists None, [], None, [].
  - destruct (encoded_thresholds_NoDup policy) as (ts0 & -> & Hmem & _).
    rewrite !bind_Ok, !award_from_thresholds_encoded by (intros t; apply Hmem).
    do 4 eexists. split; [done|]. split; [done|].
    destruct (filter_le_prefix (merge_sort Z.le ts0) total total') as [k ->];
      [apply StronglySorted_merge_sort; apply _|done|].
    rewrite fmap_app. by eexists.
Qed.

Lemma next_award_roles_for_roles_grow_witness :
  ∃ best roles best' roles',
    next_award_roles_for sample_rewards 1 5 = Ok (best, roles) ∧
    next_award_roles_for sample_rewards 1 12 = Ok (best', roles') ∧
    roles `prefix_of` roles'.
Proof.
  apply (next_award_roles_for_roles_grow sample_rewards 1 5 12 sample_policy).
  - vm_compute. reflexivity.
  - lia.
Defined.

Lemma py_int_Raise s e : py_int s = Raise e → e = ValueError.
Proof.
  unfold py_int. destruct (utf8_decode s) as [cps|]; [|by intros [= <-]].
  destruct (digits_value 0 false _); [done|]. by intros [= <-].
Qed.

Lemma py_int_letter k : starts_with_letter k = true → py_int k = Raise ValueError.
Proof.
  destruct k as [|c s]; [done|]. simpl. intros Hl.
  assert (Hc : (Ascii.N_of_ascii c <? 128)%N = true).
  { unfold is_letter in Hl. apply N.ltb_lt.
    apply orb_prop in Hl as [H|H]; apply andb_prop in H as [_ H%N.leb_le]; lia. }
  unfold py_int. rewrite (utf8_decode_ascii _ _ Hc).
  destruct (utf8_decode s) as [cps|]; [|done].
  destruct c as [[] [] [] [] [] [] [] []]; try discriminate Hl; reflexivity.
Qed.

(** X17: when a guild's mapping holds a key that starts with a letter,
    [next_award_roles_for] raises [ValueError] for that guild at every
    total, however small: the keys are all converted before any threshold
    is compared. *)
Theorem next_award_roles_for_bad_key rewards g total k v :
  guild_mapping rewards g !! k = Some v →
  starts_with_letter k = true →
  next_award_roles_for rewards g total = Raise ValueError.
Proof.
  intros Hk Hletter. rewrite next_award_roles_for_unfold.
  destruct (decide (guild_mapping rewards g = ∅)) as [Hempty|_].
  { by rewrite Hempty, lookup_empty in Hk. }
  destruct (mapM_result_cases py_int (map_to_list (guild_mapping rewards g)).*1)
    as [(ts & _ & HF)|(e & -> & HE)].
  - assert (k ∈ (map_to_list (guild_mapping rewards g)).*1) as Hin.
    { apply list_elem_of_fmap. exists (k, v). split; [done|].
      by apply elem_of_map_to_list. }
    apply list_elem_of_lookup in Hin as [i Hi].
    destruct (Forall2_lookup_l _ _ _ _ _ HF Hi) as (t & _ & Ht).
    by rewrite (py_int_letter k Hletter) in Ht.
  - apply Exists_exists in HE as (k' & _ & Hk').
    by apply py_int_Raise in Hk' as ->.
Qed.

Lemma next_award_roles_for_bad_key_witness :
  next_award_roles_for (REFERRAL_REWARDS sample_bad_key_state) 1 0 = Raise ValueError.
Proof.
  apply (next_award_roles_for_bad_key (REFERRAL_REWARDS sample_bad_key_state)
           1 0 "abc" 100); reflexivity.
Defined.

(** * Reward configuration: loading integer configurations, reloading *)

Lemma foldl_insert_map_to_list {V} (m : gmap string V) :
  foldl (λ d kv, <[kv.1 := kv.2]> d) ∅ (map_to_list m) = m.
Proof.
  apply map_eq. intros k. apply option_eq. intros v. split.
  - intros [H|H]%foldl_insert_Some; [by rewrite lookup_empty in H|].
    by apply elem_of_map_to_list.
  - intros Hv.
    assert (is_Some (foldl (λ d kv, <[kv.1 := kv.2]> d) (∅ : gmap string V)
                      (map_to_list m) !! k))
      as [v' Hv'].
    { apply foldl_insert_is_Some. right. apply list_elem_of_fmap.
      exists (k, v). split; [done|]. by apply elem_of_map_to_list. }
    rewrite Hv'. f_equal.
    apply foldl_insert_Some in Hv' as [H|H]; [by rewrite lookup_empty in H|].
    apply elem_of_map_to_list in H. congruence.
Qed.

Lemma convert_mapping_json (m : gmap string Z) :
  convert_mapping (json_of_mapping m) = Ok m.
Proof.
  unfold convert_mapping, json_of_mapping. cbn [py_items]. rewrite bind_Ok.
  rewrite (mapM_result_fmap _ (λ kv, (kv.1, match kv.2 with PInt n => n | _ => 0 end))).
  - rewrite bind_Ok, <- list_fmap_compose.
    rewrite (list_fmap_ext _ id (map_to_list m)) by (by intros ? [? ?]).
    by rewrite list_fmap_id, foldl_insert_map_to_list.
  - intros kv Hkv. apply list_elem_of_fmap in Hkv as ([k n] & -> & _). done.
Qed.

Lemma convert_config_json (cfg : gmap string (gmap string Z)) :
  convert_config (json_of_config cfg) = Ok cfg.
Proof.
  unfold convert_config, json_of_config. cbn [py_items]. rewrite bind_Ok.
  rewrite (mapM_result_fmap _
             (λ gm, (gm.1, match convert_mapping gm.2 with Ok m => m | _ => ∅ end))).
  - rewrite bind_Ok, <- list_fmap_compose.
    rewrite (list_fmap_ext _ id (map_to_list cfg)).
    + by rewrite list_fmap_id, foldl_insert_map_to_list.
    + intros ? [g m] _. simpl. by rewrite convert_mapping_json.
  - intros gm Hgm. apply list_elem_of_fmap in Hgm as ([g m] & -> & _).
    simpl. by rewrite convert_mapping_json.
Qed.

(** X18: a configuration whose role ids are JSON integers is loaded
    exactly as written, for every guild and threshold key, with no
    diagnostic. *)
Theorem load_rewards_config_integers cfg :
  load_rewards_config (EnvText (Some (json_of_config cfg))) = (cfg, []).
Proof. unfold load_rewards_config. by rewrite convert_config_json. Qed.

Lemma next_award_roles_for_no_config g total :
  next_award_roles_for ∅ g total = Ok (None, []).
Proof.
  rewrite next_award_roles_for_unfold. unfold guild_mapping.
  rewrite lookup_empty. simpl. by rewrite decide_True.
Qed.

(** X19: when the owner reloads a configuration that is not valid, the
    reward configuration in force becomes empty: from then on
    [next_award_roles_for] returns no role for any guild and total, even for
    guilds whose previous configuration was fine; the cache and the ledger
    are untouched, and an error is logged.  A reload asked by anyone else
    changes nothing. *)
Theorem reload_rewards_invalid user_id owner_id data st :
  valid_config data = false →
  reload_rewards owner_id owner_id (EnvText (Some data)) st =
    ({| invites_cache := invites_cache st; store := store st;
        REFERRAL_REWARDS := ∅ |}, ReplyReloaded, [LogError]) ∧
  (∀ g total,
     next_award_roles_for
       (REFERRAL_REWARDS
          (reload_rewards owner_id owner_id (EnvText (Some data)) st).1.1)
       g total = Ok (None, [])) ∧
  (user_id ≠ owner_id →
   reload_rewards user_id owner_id (EnvText (Some data)) st =
     (st, ReplyOwnerOnly, [])).
Proof.
  intros Hinvalid.
  assert (Hload : load_rewards_config (EnvText (Some data)) = (∅, [LogError])).
  { unfold load_rewards_config.
    pose proof (convert_config_cases data) as H. rewrite Hinvalid in H.
    by destruct H as [e ->]. }
  assert (Hreload : reload_rewards owner_id owner_id (EnvText (Some data)) st =
            ({| invites_cache := invites_cache st; store := store st;
                REFERRAL_REWARDS := ∅ |}, ReplyReloaded, [LogError])).
  { unfold reload_rewards. rewrite decide_True by done. by rewrite Hload. }
  split; [exact Hreload|]. split.
  - intros g total. rewrite Hreload. apply next_award_roles_for_no_config.
  - intros Hne. unfold reload_rewards. by rewrite decide_False.
Qed.

Lemma reload_rewards_invalid_witness :
  reload_rewards 7 7 (EnvText (Some sample_mixed_config)) sample_registered_state =
    ({| invites_cache := invites_cache sample_registered_state;
        store := store sample_registered_state;
        REFERRAL_REWARDS := ∅ |}, ReplyReloaded, [LogError]) ∧
  (∀ g total,
     next_award_roles_for
       (REFERRAL_REWARDS
          (reload_rewards 7 7 (EnvText (Some sample_mixed_config))
             sample_registered_state).1.1)
       g total = Ok (None, [])) ∧
  (8 ≠ 7 →
   reload_rewards 8 7 (EnvText (Some sample_mixed_config)) sample_registered_state =
     (sample_registered_state, ReplyOwnerOnly, [])).
Proof.
  apply (reload_rewards_invalid 8 7 sample_mixed_config sample_registered_state).
  reflexivity.
Defined.

(** * Commands: personal invites *)

Lemma upsert_select_owner g u code db :
  sql_select_owner g code (add_or_upsert_invite_owner g u code db) = Some u.
Proof.
  unfold sql_select_owner.
  destruct (user_invites db !! code) as [old|] eqn:E.
  - rewrite (upsert_lookup_present _ _ _ _ _ E). simpl. by rewrite decide_True.
  - rewrite (upsert_lookup_absent _ _ _ _ E). simpl. by rewrite decide_True.
Qed.

(** X20: an invite made by [create_personal_invite] is credited to the
    member who asked for it: when a later join in that guild is resolved to
    its code, the code's owner is that member, the member's total goes up
    by exactly one and the join event is stored. *)
Theorem personal_invite_join_credited create_invite gd user max_uses max_age_minutes
    st inv member after now :
  create_invite (invite_limits max_uses max_age_minutes).1
                (invite_limits max_uses max_age_minutes).2 = CreateOk inv →
  inv_code inv ≠ "" →
  resolveJoin
    (before_snapshot gd
       (create_personal_invite create_invite (guild_id gd) user
          max_uses max_age_minutes st).1)
    after = Some (inv_code inv) →
  sql_select_owner (guild_id gd) (inv_code inv)
    (store (on_member_join gd member (FetchOk after) now
       (create_personal_invite create_invite (guild_id gd) user
          max_uses max_age_minutes st).1).1) = Some user ∧
  get_member_total_referrals (guild_id gd) user
    (store (on_member_join gd member (FetchOk after) now
       (create_personal_invite create_invite (guild_id gd) user
          max_uses max_age_minutes st).1).1) =
    get_member_total_referrals (guild_id gd) user
      (store (create_personal_invite create_invite (guild_id gd) user
                max_uses max_age_minutes st).1) + 1 ∧
  join_events
    (store (on_member_join gd member (FetchOk after) now
       (create_personal_invite create_invite (guild_id gd) user
          max_uses max_age_minutes st).1).1) =
    join_events (store st) ++
      [{| ev_guild_id := guild_id gd; ev_joined_user_id := member;
          ev_inviter_code := inv_code inv; ev_ts := now |}].
Proof.
  intros Hcreate Hne.
  unfold create_personal_invite. rewrite Hcreate. cbn [fst].
  set (st1 := {| invites_cache := on_invite_create (guild_id gd) inv (invites_cache st);
                 store := add_or_upsert_invite_owner (guild_id gd) user (inv_code inv)
                            (store st);
                 REFERRAL_REWARDS := REFERRAL_REWARDS st |}).
  intros Hres.
  pose proof (upsert_select_owner (guild_id gd) user (inv_code inv) (store st)) as Hsel.
  assert (∃ r, user_invites (store st1) !! inv_code inv = Some r ∧
               row_guild_id r = guild_id gd ∧ row_user_id r = user)
    as (r & Hr & Hg & Hu).
  { unfold sql_select_owner in Hsel. unfold st1. cbn [store].
    destruct (user_invites (add_or_upsert_invite_owner (guild_id gd) user
                (inv_code inv) (store st)) !! inv_code inv) as [r|]; [|done].
    destruct (decide (row_guild_id r = guild_id gd)); [|done].
    injection Hsel as Hu. by exists r. }
  destruct (join_credit gd member after now st1 (inv_code inv) r Hres Hne Hr Hg)
    as (Hnew & _ & Hev & Htot).
  split; [|split].
  - unfold sql_select_owner. rewrite Hnew. simpl. rewrite decide_True by done.
    by rewrite Hu.
  - by rewrite <- Hu.
  - rewrite Hev. reflexivity.
Qed.

Lemma personal_invite_join_credited_witness :
  sql_select_owner (guild_id sample_guild) (inv_code (sample_invite "P" 0))
    (store (on_member_join sample_guild 42
       (FetchOk [sample_invite "A" 5; sample_invite "P" 1]) 1000
       (create_personal_invite sample_create_invite (guild_id sample_guild) 9
          0 0 sample_state).1).1) = Some 9 ∧
  get_member_total_referrals (guild_id sample_guild) 9
    (store (on_member_join sample_guild 42
       (FetchOk [sample_invite "A" 5; sample_invite "P" 1]) 1000
       (create_personal_invite sample_create_invite (guild_id sample_guild) 9
          0 0 sample_state).1).1) =
    get_member_total_referrals (guild_id sample_guild) 9
      (store (create_personal_invite sample_create_invite (guild_id sample_guild) 9
                0 0 sample_state).1) + 1 ∧
  join_events
    (store (on_member_join sample_guild 42
       (FetchOk [sample_invite "A" 5; sample_invite "P" 1]) 1000
       (create_personal_invite sample_create_invite (guild_id sample_guild) 9
          0 0 sample_state).1).1) =
    join_events (store sample_state) ++
      [{| ev_guild_id := guild_id sample_guild; ev_joined_user_id := 42;
          ev_inviter_code := inv_code (sample_invite "P" 0); ev_ts := 1000 |}].
Proof.
  apply (personal_invite_join_credited sample_create_invite sample_guild 9 0 0
           sample_state (sample_invite "P" 0) 42
           [sample_invite "A" 5; sample_invite "P" 1] 1000);
    [reflexivity|discriminate|reflexivity].
Defined.

(** * Commands: public invites *)

Lemma join_uncredited gd member after now st code :
  resolveJoin (before_snapshot gd st) after = Some code →
  code ≠ "" →
  user_invites (store st) !! code = None →
  (on_member_join gd member (FetchOk after) now st).2 = Attributed code None ∧
  (∀ g u,
     get_member_total_referrals g u
       (store (on_member_join gd member (FetchOk after) now st).1) =
     get_member_total_referrals g u (store st)) ∧
  join_events (store (on_member_join gd member (FetchOk after) now st).1) =
    join_events (store st) ++
      [{| ev_guild_id := guild_id gd; ev_joined_user_id := member;
          ev_inviter_code := code; ev_ts := now |}].
Proof.
  intros Hres Hne Hrow.
  assert (Hsel : sql_select_owner (guild_id gd) code (store st) = None).
  { unfold sql_select_owner. by rewrite Hrow. }
  assert (Htruthy : truthy_str (resolveJoin (before_snapshot gd st) after) = Some code).
  { rewrite Hres. simpl. by rewrite decide_False. }
  split; [|split].
  - unfold on_member_join. fold (before_snapshot gd st). rewrite Htruthy.
    replace (sql_select_owner (guild_id gd) code
               (increment_code_use (guild_id gd) code member now (store st)))
      with (@None Z); [done|].
    unfold sql_select_owner. by rewrite increment_lookup_miss, Hrow.
  - intros g u. rewrite (on_member_join_determined _ _ _ _ _ _ Htruthy). cbn [store].
    rewrite total_after_increment, Hsel.
    rewrite decide_False by (by intros [_ ?]). lia.
  - rewrite (on_member_join_determined _ _ _ _ _ _ Htruthy). cbn [store].
    apply increment_join_events.
Qed.

(** X24: an invite made by [create_public_invite] is cached but credits no
    one: when its code was not registered and a later join in that guild
    resolves to it, the join event is stored, no role is granted and the
    total of every user in every guild stays what it was. *)
Theorem public_invite_join_uncredited create_invite gd max_uses max_age_minutes
    st inv member after now :
  create_invite (invite_limits max_uses max_age_minutes).1
                (invite_limits max_uses max_age_minutes).2 = CreateOk inv →
  inv_code inv ≠ "" →
  user_invites (store st) !! inv_code inv = None →
  resolveJoin
    (before_snapshot gd
       (create_public_invite create_invite (guild_id gd)
          max_uses max_age_minutes st).1)
    after = Some (inv_code inv) →
  (on_member_join gd member (FetchOk after) now
     (create_public_invite create_invite (guild_id gd)
        max_uses max_age_minutes st).1).2 = Attributed (inv_code inv) None ∧
  (∀ g u,
     get_member_total_referrals g u
       (store (on_member_join gd member (FetchOk after) now
          (create_public_invite create_invite (guild_id gd)
             max_uses max_age_minutes st).1).1) =
     get_member_total_referrals g u (store st)) ∧
  join_events
    (store (on_member_join gd member (FetchOk after) now
       (create_public_invite create_invite (guild_id gd)
          max_uses max_age_minutes st).1).1) =
    join_events (store st) ++
      [{| ev_guild_id := guild_id gd; ev_joined_user_id := member;
          ev_inviter_code := inv_code inv; ev_ts := now |}].
Proof.
  intros Hcreate Hne Hrow.
  unfold create_public_invite. rewrite Hcreate. cbn [fst].
  intros Hres.
  exact (join_uncredited gd member after now
           {| invites_cache := on_invite_create (guild_id gd) inv (invites_cache st);
              store := store st;
              REFERRAL_REWARDS := REFERRAL_REWARDS st |}
           (inv_code inv) Hres Hne Hrow).
Qed.

Lemma public_invite_join_uncredited_witness :
  (on_member_join sample_guild 42
     (FetchOk [sample_invite "A" 5; sample_invite "P" 1]) 1000
     (create_public_invite sample_create_invite (guild_id sample_guild)
        0 0 sample_registered_state).1).2
    = Attributed (inv_code (sample_invite "P" 0)) None ∧
  (∀ g u,
     get_member_total_referrals g u
       (store (on_member_join sample_guild 42
          (FetchOk [sample_invite "A" 5; sample_invite "P" 1]) 1000
          (create_public_invite sample_create_invite (guild_id sample_guild)
             0 0 sample_registered_state).1).1) =
     get_member_total_referrals g u (store sample_registered_state)) ∧
  join_events
    (store (on_member_join sample_guild 42
       (FetchOk [sample_invite "A" 5; sample_invite "P" 1]) 1000
       (create_public_invite sample_create_invite (guild_id sample_guild)
          0 0 sample_registered_state).1).1) =
    join_events (store sample_registered_state) ++
      [{| ev_guild_id := guild_id sample_guild; ev_joined_user_id := 42;
          ev_inviter_code := inv_code (sample_invite "P" 0); ev_ts := 1000 |}].
Proof.
  apply (public_invite_join_uncredited sample_create_invite sample_guild 0 0
           sample_registered_state (sample_invite "P" 0) 42
           [sample_invite "A" 5; sample_invite "P" 1] 1000);
    [reflexivity|discriminate|reflexivity|reflexivity].
Defined.

(** * Commands: the leaderboard query *)

#[global] Instance total_desc_trans : Transitive total_desc.
Proof. unfold total_desc. intros a b c ??. lia. Qed.

#[global] Instance total_desc_total : Total total_desc.
Proof. unfold total_desc. intros a b. lia. Qed.

Lemma group_total g u db :
  foldr Z.add 0
    (row_uses <$> filter (λ r, row_user_id r = u)
       (filter (λ r, row_guild_id r = g) (map_to_list (user_invites db)).*2)) =
  get_member_total_referrals g u db.
Proof.
  unfold get_member_total_referrals.
  rewrite or0_Some, sql_sum_uses_foldr, list_filter_filter.
  do 2 f_equal. apply list_filter_iff. intros r. unfold owned_by. tauto.
Qed.

Lemma guild_user_listed g u db :
  u ∈ remove_dups
        (row_user_id <$> filter (λ r, row_guild_id r = g)
                           (map_to_list (user_invites db)).*2) ↔
  ∃ code r, user_invites db !! code = Some r ∧ owned_by g u r.
Proof.
  rewrite elem_of_remove_dups, list_elem_of_fmap. split.
  - intros (r & -> & [Hg Hr]%list_elem_of_filter).
    apply list_elem_of_fmap in Hr as ([code r'] & -> & Hr).
    apply elem_of_map_to_list in Hr. by exists code, r'.
  - intros (code & r & Hr & Hg & Hu). exists r. split; [done|].
    apply list_elem_of_filter. split; [done|].
    apply list_elem_of_fmap. exists (code, r). split; [done|].
    by apply elem_of_map_to_list.
Qed.

(** The query without [LIMIT]. *)
Lemma sql_top_referrals_unlimited g db :
  sql_top_referrals g (-1) db =
    merge_sort total_desc
      ((λ u, (u, get_member_total_referrals g u db)) <$>
         remove_dups
           (row_user_id <$> filter (λ r, row_guild_id r = g)
                              (map_to_list (user_invites db)).*2)).
Proof.
  unfold sql_top_referrals. rewrite decide_True by lia. f_equal.
  apply list_fmap_ext. intros _ u _. f_equal. apply group_total.
Qed.

Lemma sql_top_referrals_take g limit db :
  sql_top_referrals g limit db =
    if decide (limit < 0) then sql_top_referrals g (-1) db
    else take (Z.to_nat limit) (sql_top_referrals g (-1) db).
Proof.
  unfold sql_top_referrals. rewrite (decide_True (P := -1 < 0)) by lia. done.
Qed.

Lemma unlimited_elem g db u t :
  (u, t) ∈ sql_top_referrals g (-1) db ↔
  t = get_member_total_referrals g u db ∧
  ∃ code r, user_invites db !! code = Some r ∧ owned_by g u r.
Proof.
  rewrite sql_top_referrals_unlimited, merge_sort_Permutation, list_elem_of_fmap.
  setoid_rewrite <- guild_user_listed. split.
  - by intros (u' & [= -> ->] & Hu).
  - intros [-> Hu]. by exists u.
Qed.

Lemma unlimited_sorted g db : StronglySorted total_desc (sql_top_referrals g (-1) db).
Proof. rewrite sql_top_referrals_unlimited. apply StronglySorted_merge_sort; apply _. Qed.

Lemma unlimited_NoDup g db : NoDup (sql_top_referrals g (-1) db).*1.
Proof.
  rewrite sql_top_referrals_unlimited, merge_sort_Permutation.
  rewrite <- list_fmap_compose.
  rewrite (list_fmap_ext _ id) by done.
  rewrite list_fmap_id. apply NoDup_remove_dups.
Qed.

Lemma top_sublist g limit db :
  sql_top_referrals g limit db `sublist_of` sql_top_referrals g (-1) db.
Proof.
  rewrite sql_top_referrals_take. destruct (decide (limit < 0)); [done|].
  apply sublist_take.
Qed.

Lemma top_rows_sound g limit db :
  StronglySorted total_desc (sql_top_referrals g limit db) ∧
  NoDup (sql_top_referrals g limit db).*1 ∧
  (0 ≤ limit → (length (sql_top_referrals g limit db) ≤ Z.to_nat limit)%nat) ∧
  (∀ u t, (u, t) ∈ sql_top_referrals g limit db →
     t = get_member_total_referrals g u db ∧
     ∃ code r, user_invites db !! code = Some r ∧ owned_by g u r).
Proof.
  split; [|split; [|split]].
  - rewrite sql_top_referrals_take. destruct (decide (limit < 0)).
    + apply unlimited_sorted.
    + apply (StronglySorted_app_1_l _ _ (drop (Z.to_nat limit) (sql_top_referrals g (-1) db))).
      rewrite take_drop. apply unlimited_sorted.
  - eapply sublist_NoDup; [apply (unlimited_NoDup g db)|].
    apply fmap_sublist, top_sublist.
  - intros Hl. rewrite sql_top_referrals_take, decide_False by lia.
    rewrite length_take. lia.
  - intros u t Hin. apply unlimited_elem.
    eapply elem_of_sublist; [done|apply top_sublist].
Qed.

(** X21: the rows of the leaderboard query list distinct users, each with
    the total [get_member_total_referrals] gives that user in the guild and
    each owning at least one invite there; the totals never increase down
    the list; and a non-negative limit bounds the number of rows. *)
Theorem sql_top_referrals_sound g limit db :
  StronglySorted total_desc (sql_top_referrals g limit db) ∧
  NoDup (sql_top_referrals g limit db).*1 ∧
  (0 ≤ limit → (length (sql_top_referrals g limit db) ≤ Z.to_nat limit)%nat) ∧
  (∀ u t, (u, t) ∈ sql_top_referrals g limit db →
     t = get_member_total_referrals g u db ∧
     ∃ code r, user_invites db !! code = Some r ∧ owned_by g u r).
Proof. apply top_rows_sound. Qed.

Lemma top_rows_complete g limit db u code r :
  user_invites db !! code = Some r → owned_by g u r →
  (u, get_member_total_referrals g u db) ∈ sql_top_referrals g limit db ∨
  (0 ≤ limit ∧
   length (sql_top_referrals g limit db) = Z.to_nat limit ∧
   ∀ u' t', (u', t') ∈ sql_top_referrals g limit db →
     get_member_total_referrals g u db ≤ t').
Proof.
  intros Hr Hown.
  assert (Hfull : (u, get_member_total_referrals g u db) ∈ sql_top_referrals g (-1) db).
  { apply unlimited_elem. split; [done|]. by exists code, r. }
  rewrite sql_top_referrals_take. destruct (decide (limit < 0)); [by left|].
  rewrite <- (take_drop (Z.to_nat limit) (sql_top_referrals g (-1) db)) in Hfull.
  apply elem_of_app in Hfull as [Hin|Hin]; [by left|right].
  split; [lia|]. split.
  - apply length_take_le.
    destruct (decide (Z.to_nat limit ≤ length (sql_top_referrals g (-1) db))%nat)
      as [|Hgt]; [done|].
    rewrite drop_ge in Hin by lia. by apply elem_of_nil in Hin.
  - intros u' t' Hin'.
    pose proof (unlimited_sorted g db) as Hs.
    rewrite <- (take_drop (Z.to_nat limit) (sql_top_referrals g (-1) db)) in Hs.
    apply (StronglySorted_app_1_elem_of _ _ _ _ _ Hs Hin' Hin).
Qed.

(** X22: a user who owns an invite in the guild is either on the
    leaderboard or the leaderboard is full (as many rows as the limit) and
    every listed total is at least that user's total. *)
Theorem sql_top_referrals_complete g limit db u code r :
  user_invites db !! code = Some r → owned_by g u r →
  (u, get_member_total_referrals g u db) ∈ sql_top_referrals g limit db ∨
  (0 ≤ limit ∧
   length (sql_top_referrals g limit db) = Z.to_nat limit ∧
   ∀ u' t', (u', t') ∈ sql_top_referrals g limit db →
     get_member_total_referrals g u db ≤ t').
Proof. apply top_rows_complete. Qed.

Lemma sql_top_referrals_complete_witness :
  (8, get_member_total_referrals 1 8 sample_board_db)
    ∈ sql_top_referrals 1 2 sample_board_db ∨
  (0 ≤ 2 ∧
   length (sql_top_referrals 1 2 sample_board_db) = Z.to_nat 2 ∧
   ∀ u' t', (u', t') ∈ sql_top_referrals 1 2 sample_board_db →
     get_member_total_referrals 1 8 sample_board_db ≤ t').
Proof.
  apply (sql_top_referrals_complete 1 2 sample_board_db 8 "C" (sample_row 1 8 2)).
  - reflexivity.
  - by split.
Defined.

(** X23: with a limit other than 0, [top_referrals] answers that there is
    no referral data exactly when no invite is registered in the guild. *)
Theorem top_referrals_no_data g limit st :
  limit ≠ 0 →
  (top_referrals g limit st = ReplyNoData ↔
   ∀ code r, user_invites (store st) !! code = Some r → row_guild_id r ≠ g).
Proof.
  intros Hl. unfold top_referrals. split.
  - destruct (sql_top_referrals g limit (store st)) as [|row rows] eqn:E; [|done].
    intros _ code r Hr Hg.
    destruct (top_rows_complete g limit (store st) (row_user_id r) code r Hr)
      as [Hin|(Hpos & Hlen & _)]; [done| |].
    + rewrite E in Hin. by apply elem_of_nil in Hin.
    + rewrite E in Hlen. simpl in Hlen. lia.
  - intros Hnone.
    destruct (sql_top_referrals g limit (store st)) as [|[u t] rows] eqn:E; [done|].
    assert ((u, t) ∈ sql_top_referrals g limit (store st)) as Hin
      by (rewrite E; left).
    apply top_rows_sound in Hin as (_ & code & r & Hr & Hg & _).
    by destruct (Hnone code r Hr).
Qed.

Lemma top_referrals_no_data_witness :
  top_referrals 3 10 sample_registered_state = ReplyNoData ↔
  ∀ code r, user_invites (store sample_registered_state) !! code = Some r →
            row_guild_id r ≠ 3.
Proof. apply (top_referrals_no_data 3 10 sample_registered_state). lia. Defined.

(** The leaderboard of a small store: members 9 and 7 tie at 7 referrals,
    member 8 follows with 2; guild 2's invite does not count. *)
Example sql_top_referrals_sample :
  sql_top_referrals 1 10 sample_board_db = [(9, 7); (7, 7); (8, 2)] ∨
  sql_top_referrals 1 10 sample_board_db = [(7, 7); (9, 7); (8, 2)].
Proof. vm_compute. tauto. Qed.
